(** * DnaChisel specifications: evaluation and localization

    A shallow embedding of the objectives and constraints of DnaChisel
    ([dnachisel/objectives/objectives.py],
    [dnachisel/builtin_specifications/EnforceMeltingTemperature.py] and
    [dnachisel/specifications/builtin_specifications/CodonOptimize.py]),
    followed by the properties of their [evaluate], [localized] and
    constructor methods.

    Conventions of the embedding:
    - a Python [str] is a list of characters, a Python [int] is a [Z];
    - the GC proportions, the codon usages and the boosts are rationals [Q];
      the melting temperatures, on which the code subtracts, halves and takes
      absolute values in double precision, are binary64 floats [float], a
      Python [int] given as a temperature being the float of the same value;
    - a window [(start, end)] or [[start, end]] is a pair of [Z];
    - a method that can raise returns a [result];
    - the evaluation objects keep the score and the reported windows; the
      back references to the objective and the problem and the diagnostic
      message are not part of the model. *)

From Stdlib Require Import ZArith QArith Qminmax Qabs Lqa Lia Ascii String.
From Stdlib Require Import PrimFloat.
From stdpp Require Import gmap strings list sorting.

Open Scope Z_scope.

(** ** Python values, exceptions and slices *)

Definition str := list ascii.

Definition py (s : string) : str := list_ascii_of_string s.

Inductive exn :=
| ValueError (msg : string)
| TypeError
| KeyError
| AttributeError
| IndexError
| RangeError.

Inductive result (A : Type) :=
| Ok (a : A)
| Raise (e : exn).
Arguments Ok {A} a.
Arguments Raise {A} e.

Global Instance result_ret : MRet result := λ A a, Ok a.

Global Instance result_bind : MBind result := λ A B k r,
  match r with
  | Ok a => k a
  | Raise e => Raise e
  end.

Definition from_option {A} (e : exn) (o : option A) : result A :=
  match o with
  | Some a => Ok a
  | None => Raise e
  end.

Fixpoint mapM {A B} (f : A → result B) (l : list A) : result (list B) :=
  match l with
  | [] => Ok []
  | x :: l' => y ← f x; ys ← mapM f l'; Ok (y :: ys)
  end.

(** [len(s)] *)
Definition len {A} (s : list A) : Z := Z.of_nat (length s).

(** The bound of a slice, as Python clamps it: a negative index counts
    from the end. *)
Definition slice_index (n i : Z) : Z :=
  if decide (i < 0) then Z.max 0 (n + i) else Z.min i n.

(** [s[a:b]] *)
Definition py_slice {A} (s : list A) (a b : Z) : list A :=
  let lo := slice_index (len s) a in
  let hi := slice_index (len s) b in
  take (Z.to_nat (hi - lo)) (drop (Z.to_nat lo) s).

(** [range(n)] *)
Definition py_range (n : Z) : list Z := seqZ 0 n.

(** ** Windows *)

Definition interval := (Z * Z)%type.

(** Two windows share a base position. *)
Definition windows_share_position (w1 w2 : interval) : Prop :=
  ∃ p, w1.1 ≤ p < w1.2 ∧ w2.1 ≤ p < w2.2.

(** [W] fully covers [w]. *)
Definition window_covers (W w : interval) : Prop :=
  W.1 ≤ w.1 ∧ w.2 ≤ W.2.

(** Modelled from the spec: [biotools.windows_overlap] is not among the
    sources.  It returns the intersection interval of two windows, or none
    if they are disjoint; windows touching at a single point do not
    overlap. *)
Definition windows_overlap (w1 w2 : interval) : option interval :=
  let start := Z.max w1.1 w2.1 in
  let stop := Z.min w1.2 w2.2 in
  if decide (start < stop) then Some (start, stop) else None.

(** Python orders tuples and lists lexicographically. *)
Definition window_le (p q : interval) : Prop :=
  p.1 < q.1 ∨ (p.1 = q.1 ∧ p.2 ≤ q.2).

Global Instance window_le_dec p q : Decision (window_le p q).
Proof. unfold window_le. apply _. Defined.

(** [sorted(windows)] *)
Definition py_sorted (l : list interval) : list interval :=
  merge_sort window_le l.

(** ** Evaluations *)

(** Modelled from the spec: [ObjectiveEvaluation] is not among the sources.
    It is the value object returned by [evaluate], with a score and the
    violated windows; [windows] is [None] when the caller passes no
    [windows] argument. *)
Record ObjectiveEvaluation (S : Type) := {
  score : S;
  windows : option (list interval);
}.
Arguments score {S} _.
Arguments windows {S} _.
Arguments Build_ObjectiveEvaluation {S} _ _.

Definition violated_windows {S} (e : ObjectiveEvaluation S) : list interval :=
  default [] (windows e).

(** What [localized] returns: the void objective that remembers its parent,
    or a narrowed objective. *)
Inductive localization (T : Type) :=
| VoidObjective (parent_objective : T)
| Localized (objective : T).
Arguments VoidObjective {T} _.
Arguments Localized {T} _.

Module VoidObjective.
(** Modelled from the spec: the class [VoidObjective] is not among the
    sources.  It is the designated void specification, whose score is
    always the best possible value and which reports no window. *)
Definition best_possible_score : Z := 0.

Definition evaluate (canvas_sequence : str) : ObjectiveEvaluation Z :=
  {| score := best_possible_score; windows := None |}.
End VoidObjective.

(** ** Dynamically typed values

    The values that [CodonOptimize.evaluate] of the specifications package
    computes its indices with: a Python [int], a numpy array of integers,
    or a tuple of such arrays. *)
Inductive pyval :=
| PyInt (n : Z)
| PyArray (a : list Z)
| PyTuple (items : list (list Z)).

(** [k * v] for an [int] [k]: a number is multiplied, an array is
    multiplied entry by entry, a tuple is repeated [k] times. *)
Definition int_times (k : Z) (v : pyval) : pyval :=
  match v with
  | PyInt n => PyInt (k * n)
  | PyArray a => PyArray (map (Z.mul k) a)
  | PyTuple items => PyTuple (concat (replicate (Z.to_nat k) items))
  end.

(** [v += k] for an [int] [k]: a tuple only adds to a tuple. *)
Definition iadd_int (v : pyval) (k : Z) : result pyval :=
  match v with
  | PyInt n => Ok (PyInt (n + k))
  | PyArray a => Ok (PyArray (map (λ x, x + k) a))
  | PyTuple _ => Raise TypeError
  end.

(** [k - v] for an [int] [k]: nothing subtracts a tuple. *)
Definition int_minus (k : Z) (v : pyval) : result pyval :=
  match v with
  | PyInt n => Ok (PyInt (k - n))
  | PyArray a => Ok (PyArray (map (λ x, k - x) a))
  | PyTuple _ => Raise TypeError
  end.

(** [np.nonzero(a)]: a tuple with one array of indices per dimension. *)
Fixpoint nonzero_indices_from (i : Z) (a : list Q) : list Z :=
  match a with
  | [] => []
  | x :: a' =>
      if Qeq_dec x 0 then nonzero_indices_from (i + 1) a'
      else i :: nonzero_indices_from (i + 1) a'
  end.

Definition np_nonzero (a : list Q) : pyval :=
  PyTuple [nonzero_indices_from 0 a].

(** ** The primitives the objectives call

    Functions of [biotools] and of external packages that are not among the
    sources; the objectives are modelled over any implementation of
    them. *)
Record blast_parameters := {
  bp_blast_db : str;
  bp_word_size : Z;
  bp_perc_identity : Z;
  bp_num_alignments : Z;
  bp_num_threads : Z;
}.

Class Biotools := {
  (** [gc_content(sequence)]: the global proportion of G and C *)
  gc_content_global : str → Q;
  (** [gc_content(sequence, gc_window)]: one proportion per sliding window *)
  gc_content_local : str → Z → list Q;
  (** [blast_sequence]: the [(query_start, query_end)] of every hit of every
      alignment, in order *)
  blast_sequence : str → blast_parameters → list (Z * Z);
  (** [translate] *)
  translate : str → str;
  (** [pattern.find_matches(sequence, window)] *)
  find_matches : str → str → option interval → list interval;
  (** [primer3.calcTm], or [Bio.SeqUtils.MeltingTemp.Tm_NN] *)
  predictor : str → float;
  (** [CODON_USAGE] and [CODON_USAGE_TABLES]: one usage table per species *)
  CODON_USAGE_TABLES : str → option (gmap str Q);
  (** [CODONS_TRANSLATIONS] *)
  CODONS_TRANSLATIONS : gmap str str;
  (** [group_nearby_indices(indices, max_group_spread)] *)
  group_nearby_indices : pyval → Z → list (list Z);
}.

(** [gc_content(sequence, window_size)]: a single global value when
    [window_size] is [None]. *)
Definition gc_content `{Biotools} (sequence : str) (window_size : option Z)
  : list Q :=
  match window_size with
  | None => [gc_content_global sequence]
  | Some w => gc_content_local sequence w
  end.

(** Modelled from the spec: [biotools.reverse_complement] is not among the
    sources; the sequence is a text over A, C, G and T. *)
Definition complement (c : ascii) : ascii :=
  if decide (c = "A"%char) then "T"%char
  else if decide (c = "T"%char) then "A"%char
  else if decide (c = "C"%char) then "G"%char
  else if decide (c = "G"%char) then "C"%char
  else c.

Definition reverse_complement (sequence : str) : str :=
  map complement (rev sequence).

(** ** numpy helpers *)

(** [a.sum()] *)
Definition np_sum (a : list Q) : Q := foldr Qplus 0%Q a.

(** [(a > 0).nonzero()[0]]: the indices of the positive entries. *)
Fixpoint positive_indices_from (i : Z) (a : list Q) : list Z :=
  match a with
  | [] => []
  | x :: a' =>
      if Qlt_le_dec 0 x then i :: positive_indices_from (i + 1) a'
      else positive_indices_from (i + 1) a'
  end.

Definition positive_indices (a : list Q) : list Z :=
  positive_indices_from 0 a.

(** ** EnforceGCContent *)

Module EnforceGCContent.

Record t := {
  gc_objective : option Q;
  gc_min : Q;
  gc_max : Q;
  gc_window : option Z;
  window : option interval;
  boost : Q;
}.

Definition init (gc_min gc_max : Q) (gc_objective : option Q)
    (gc_window : option Z) (window : option interval) (boost : Q) : t :=
  let bounds :=
    match gc_objective with
    | Some g => (g, g)
    | None => (gc_min, gc_max)
    end in
  {| gc_objective := gc_objective; gc_min := bounds.1; gc_max := bounds.2;
     gc_window := gc_window; window := window; boost := boost |}.

Definition copy_with_window (self : t) (new_window : option interval) : t :=
  {| gc_objective := gc_objective self; gc_min := gc_min self;
     gc_max := gc_max self; gc_window := gc_window self;
     window := new_window; boost := boost self |}.

(** [np.maximum(0, gc_min - gc) + np.maximum(0, gc - gc_max)] *)
Definition breach (self : t) (g : Q) : Q :=
  (Qmax 0 (gc_min self - g) + Qmax 0 (g - gc_max self))%Q.

(** One turn of the loop over [breaches_starts[1:]]; the state is
    [(breaches_windows, current_start, last_end)]. *)
Definition merge_step (gcw wstart : Z) (st : list interval * Z * Z) (i : Z)
  : list interval * Z * Z :=
  let '(breaches_windows, current_start, last_end) := st in
  if decide (i > last_end + gcw)
  then (breaches_windows ++ [(wstart + current_start, wstart + last_end)],
        i, i + gcw)
  else (breaches_windows, current_start, i + gcw).

Definition breaches_windows (gc_window : option Z) (wstart wend : Z)
    (breaches_starts : list Z) : result (list interval) :=
  match breaches_starts with
  | [] => Ok []
  | [start] =>
      match gc_window with
      | Some gcw => Ok [(start, start + gcw)]
      | None => Ok [(wstart, wend)]
      end
  | first :: rest =>
      match gc_window with
      | None => Raise TypeError
      | Some gcw =>
          let '(acc, current_start, last_end) :=
            foldl (merge_step gcw wstart) ([], first, first + gcw) rest in
          Ok (acc ++ [(wstart + current_start, wstart + last_end)])
      end
  end.

(** The window the evaluation works on, and its subsequence. *)
Definition effective_window (self : t) (sequence : str) : interval :=
  default (0, len sequence) (window self).

Definition subsequence (self : t) (sequence : str) : str :=
  let w := effective_window self sequence in py_slice sequence w.1 w.2.

Definition breaches `{Biotools} (self : t) (sequence : str) : list Q :=
  map (breach self) (gc_content (subsequence self sequence) (gc_window self)).

Definition evaluate `{Biotools} (self : t) (sequence : str)
  : result (ObjectiveEvaluation Q) :=
  let w := effective_window self sequence in
  let b := breaches self sequence in
  let score := (- np_sum b)%Q in
  let breaches_starts := positive_indices b in
  ws ← breaches_windows (gc_window self) w.1 w.2 breaches_starts;
  Ok {| score := score; windows := Some ws |}.

Definition localized (self : t) (w : interval) : localization t :=
  match window self with
  | Some own =>
      match windows_overlap own w with
      | None => VoidObjective self
      | Some new_window => Localized (copy_with_window self (Some new_window))
      end
  | None =>
      let new_window :=
        match gc_window self with
        | Some gcw => Some (Z.max 0 (w.1 - gcw), w.2 + gcw)
        | None => None
        end in
      Localized (copy_with_window self new_window)
  end.

End EnforceGCContent.

(** ** AvoidBlastMatches *)

Module AvoidBlastMatches.

Record t := {
  blast_db : str;
  word_size : Z;
  perc_identity : Z;
  num_alignments : Z;
  num_threads : Z;
  min_align_length : Z;
  window : option interval;
}.

Definition copy_with_window (self : t) (new_window : option interval) : t :=
  {| blast_db := blast_db self; word_size := word_size self;
     perc_identity := perc_identity self;
     num_alignments := num_alignments self; num_threads := num_threads self;
     min_align_length := min_align_length self; window := new_window |}.

Definition parameters (self : t) : blast_parameters :=
  {| bp_blast_db := blast_db self; bp_word_size := word_size self;
     bp_perc_identity := perc_identity self;
     bp_num_alignments := num_alignments self;
     bp_num_threads := num_threads self |}.

(** [sorted((a, b))] *)
Definition sorted_pair (a b : Z) : interval := (Z.min a b, Z.max a b).

Definition hit_windows (self : t) (wstart : Z) (hits : list (Z * Z))
  : list interval :=
  py_sorted
    (map (λ hit : Z * Z, sorted_pair (hit.1 + wstart) (hit.2 + wstart))
       (filter (λ hit : Z * Z, min_align_length self ≤ Z.abs (hit.2 - hit.1))
          hits)).

Definition evaluate `{Biotools} (self : t) (sequence : str)
  : ObjectiveEvaluation Z :=
  let w := default (0, len sequence) (window self) in
  let subsequence := py_slice sequence w.1 w.2 in
  let blast_record := blast_sequence subsequence (parameters self) in
  let ws := hit_windows self w.1 blast_record in
  match ws with
  | [] => {| score := 1; windows := None |}
  | _ => {| score := - len ws; windows := Some ws |}
  end.

Definition localized (self : t) (w : interval) : localization t :=
  match window self with
  | Some own =>
      match windows_overlap own w with
      | None => VoidObjective self
      | Some new_window => Localized (copy_with_window self (Some new_window))
      end
  | None =>
      let radius := min_align_length self in
      Localized
        (copy_with_window self (Some (Z.max 0 (w.1 - radius), w.2 + radius)))
  end.

End AvoidBlastMatches.

(** ** The scan of AvoidNonuniqueKmers and AvoidNonuniqueSegments *)

(** [kmers_locations[key].append(position)] on a [defaultdict] of lists *)
Definition record_location (kmers_locations : gmap str (list interval))
    (key : str) (position : interval) : gmap str (list interval) :=
  <[key := default [] (kmers_locations !! key) ++ [position]]> kmers_locations.

(** The first loop: the segments of the sequence. *)
Definition scan_forward (length : Z) (sequence : str)
    (kmers_locations : gmap str (list interval)) : gmap str (list interval) :=
  foldl (λ m i, record_location m (py_slice sequence i (i + length))
                  (i, i + length))
    kmers_locations (py_range (len sequence - length)).

(** The second loop: the segments of the reverse complement, at their
    mirrored positions. *)
Definition scan_reverse (length : Z) (sequence rev_complement : str)
    (kmers_locations : gmap str (list interval)) : gmap str (list interval) :=
  foldl (λ m i, record_location m (py_slice rev_complement i (i + length))
                  (len sequence - (i + length), len sequence - i))
    kmers_locations (py_range (len sequence - length)).

Definition kmers_locations (length : Z) (include_reverse_complement : bool)
    (sequence : str) : gmap str (list interval) :=
  let forward := scan_forward length sequence ∅ in
  if include_reverse_complement
  then scan_reverse length sequence (reverse_complement sequence) forward
  else forward.

(** [min(first :: rest, key=lambda p: p[0])]: the first position among those
    with the least start. *)
Definition min_by_start (first : interval) (rest : list interval) : interval :=
  foldl (λ best p : interval, if decide (p.1 < best.1) then p else best)
    first rest.

(** [min(positions_list, key=lambda p: p[0])] under the comprehension's
    condition [len(positions_list) > 1]. *)
Definition first_of_repeated (positions_list : list interval)
  : option interval :=
  match positions_list with
  | first :: second :: rest => Some (min_by_start first (second :: rest))
  | _ => None
  end.

Definition repeated_windows (m : gmap str (list interval)) : list interval :=
  py_sorted (omap first_of_repeated (map_to_list m).*2).

Module AvoidNonuniqueKmers.

Record t := {
  length : Z;
  window : option interval;
  include_reverse_complement : bool;
}.

Definition evaluate (self : t) (sequence : str) : ObjectiveEvaluation Z :=
  let w := default (0, len sequence) (window self) in
  let subsequence := py_slice sequence w.1 w.2 in
  let ws :=
    repeated_windows
      (kmers_locations (length self) (include_reverse_complement self)
         subsequence) in
  match ws with
  | [] => {| score := 1; windows := None |}
  | _ => {| score := - len ws; windows := Some ws |}
  end.

End AvoidNonuniqueKmers.

Module AvoidNonuniqueSegments.

Record t := {
  length : Z;
  window : option interval;
  include_reverse_complement : bool;
}.

Definition evaluate (self : t) (sequence : str) : ObjectiveEvaluation Z :=
  let w := default (0, len sequence) (window self) in
  let subsequence := py_slice sequence w.1 w.2 in
  let ws :=
    repeated_windows
      (kmers_locations (length self) (include_reverse_complement self)
         subsequence) in
  match ws with
  | [] => {| score := 1; windows := None |}
  | _ => {| score := - len ws; windows := Some ws |}
  end.

End AvoidNonuniqueSegments.

(** ** AvoidPattern and EnforcePattern *)

Module AvoidPattern.

Record t := {
  pattern : str;
  window : option interval;
}.

Definition evaluate `{Biotools} (self : t) (sequence : str)
  : ObjectiveEvaluation Z :=
  let ws := find_matches (pattern self) sequence (window self) in
  {| score := - len ws; windows := Some ws |}.

End AvoidPattern.

Module EnforcePattern.

Record t := {
  pattern : str;
  window : option interval;
  occurences : Z;
  boost : Q;
}.

Definition evaluate `{Biotools} (self : t) (sequence : str)
  : ObjectiveEvaluation Z :=
  let w := default (0, len sequence) (window self) in
  let ws := find_matches (pattern self) sequence (Some w) in
  let score := - Z.abs (len ws - occurences self) in
  {| score := score; windows := Some [w] |}.

End EnforcePattern.

(** ** EnforceRegionsCompatibility *)

(** [itertools.combinations(l, 2)] *)
Fixpoint combinations2 {A} (l : list A) : list (A * A) :=
  match l with
  | [] => []
  | x :: l' => map (pair x) l' ++ combinations2 l'
  end.

(** What [Objective(evaluate, boost)] builds: an objective given by its
    evaluation function. *)
Record Objective := {
  objective_evaluate : str → ObjectiveEvaluation Z;
  objective_boost : Q;
}.

Module EnforceRegionsCompatibility.

Record t := {
  regions : list interval;
  compatibility_condition : interval → interval → str → bool;
  boost : Q;
}.

Definition max_possible_score : Z := 0.

Definition incompatible_regions_pairs (self : t) (sequence : str)
  : list (interval * interval) :=
  filter (λ p : interval * interval,
            compatibility_condition self p.1 p.2 sequence = false)
    (combinations2 (regions self)).

(** [Counter(l).get(x)] *)
Definition count_of (l : list interval) (x : interval) : nat :=
  length (filter (λ y, y = x) l).

(** [sorted(list(set(l)), key=Counter(l).get)].  The order in which a
    Python set is listed is not specified; the model lists each region at
    its last occurrence. *)
Definition count_le (l : list interval) (x y : interval) : Prop :=
  (count_of l x ≤ count_of l y)%nat.

Global Instance count_le_dec l x y : Decision (count_le l x y).
Proof. unfold count_le. apply _. Defined.

Definition regions_by_count (l : list interval) : list interval :=
  merge_sort (count_le l) (remove_dups l).

Definition evaluate (self : t) (sequence : str) : ObjectiveEvaluation Z :=
  let pairs := incompatible_regions_pairs self sequence in
  let all_regions_with_incompatibility :=
    flat_map (λ p : interval * interval, [p.1; p.2]) pairs in
  {| score := - len pairs;
     windows := Some (regions_by_count all_regions_with_incompatibility) |}.

Definition included_regions (self : t) (w : interval) : list interval :=
  filter (λ r : interval, w.1 ≤ r.1 ∧ r.1 ≤ r.2 ∧ r.2 ≤ w.2) (regions self).

(** The [evaluate] closure that [localized] defines. *)
Definition localized_evaluate (self : t) (w : interval) (sequence : str)
  : ObjectiveEvaluation Z :=
  let incompatible_regions :=
    flat_map (λ region,
      flat_map (λ included_region,
        if decide (region ≠ included_region) then
          if compatibility_condition self included_region region sequence
          then [] else [region]
        else [])
        (included_regions self w))
      (regions self) in
  {| score := - len incompatible_regions; windows := None |}.

Definition localized (self : t) (w : interval) : Objective :=
  {| objective_evaluate := localized_evaluate self w;
     objective_boost := boost self |}.

End EnforceRegionsCompatibility.

(** ** EnforceTranslation *)

Module EnforceTranslation.

Record t := {
  boost : Q;
  window : option interval;
  translation : option str;
  strand : Z;
  initialize_translation_from_problem : bool;
}.

Definition best_possible_score : Z := 1.

(** [__init__]: indexing a [window] that is [None], or taking the length of
    a [translation] that is [None], raises [TypeError]. *)
Definition init (window : option interval) (strand : Z)
    (translation : option str) (boost : Q) : result t :=
  w ← from_option TypeError window;
  let window_size := w.2 - w.1 in
  tr ← from_option TypeError translation;
  if decide (window_size ≠ 3 * len tr)
  then Raise (ValueError
                "Window size (%d bp) incompatible with translation (%d aa)")
  else Ok {| boost := boost; window := window; translation := translation;
             strand := strand;
             initialize_translation_from_problem :=
               bool_decide (translation = None) |}.

Definition evaluate `{Biotools} (self : t) (sequence : str)
  : ObjectiveEvaluation Z :=
  let w := default (0, len sequence) (window self) in
  let subsequence := py_slice sequence w.1 w.2 in
  let subsequence :=
    if decide (strand self = -1) then reverse_complement subsequence
    else subsequence in
  let success :=
    if decide (Some (translate subsequence) = translation self) then 1
    else -1 in
  {| score := success; windows := None |}.

(** The file is Python 2 code ([range(length / 3)] in [CodonOptimize]):
    [/] between two [int] is the floor division. *)
Definition localized (self : t) (w : interval) : result (localization t) :=
  match window self with
  | Some own =>
      match windows_overlap w own with
      | None => Ok (VoidObjective self)
      | Some overlap =>
          let '(o_start, o_end) := overlap in
          let '(w_start, w_end) := own in
          let start_codon := (o_start - w_start) `div` 3 in
          let end_codon := (o_end - w_start) `div` 3 in
          let new_window :=
            (w_start + 3 * start_codon,
             Z.min w_end (w_start + 3 * (end_codon + 1))) in
          tr ← from_option TypeError (translation self);
          let new_translation := py_slice tr start_codon (end_codon + 1) in
          new ← init (Some new_window) (strand self) (Some new_translation)
                  (boost self);
          Ok (Localized new)
      end
  | None => Ok (Localized self)
  end.

Definition copy_with_translation (self : t) (new_translation : option str)
  : t :=
  {| boost := boost self; window := window self;
     translation := new_translation; strand := strand self;
     initialize_translation_from_problem :=
       initialize_translation_from_problem self |}.

(** [initialize_problem]: unpacking a [window] that is [None] raises
    [TypeError]. *)
Definition initialize_problem `{Biotools} (self : t) (problem_sequence : str)
  : result t :=
  if initialize_translation_from_problem self then
    w ← from_option TypeError (window self);
    let subsequence := py_slice problem_sequence w.1 w.2 in
    let subsequence :=
      if decide (strand self = -1) then reverse_complement subsequence
      else subsequence in
    Ok (copy_with_translation self (Some (translate subsequence)))
  else Ok self.

End EnforceTranslation.

(** ** CodonOptimize of [objectives.py] *)

Definition no_table_message : string :=
  "Provide either an organism name or a codon usage table".

Definition not_multiple_of_3_message : string :=
  "CodonOptimizationObjective on a window/sequencewith size %d not multiple of 3)".

Module CodonOptimize.

Record t := {
  boost : Q;
  window : option interval;
  strand : Z;
  organism : option str;
  codon_usage_table : gmap str Q;
}.

Definition init `{Biotools} (organism : option str)
    (window : option interval) (strand : Z)
    (codon_usage_table : option (gmap str Q)) (boost : Q) : result t :=
  codon_usage_table ←
    match organism with
    | Some name => table ← from_option KeyError (CODON_USAGE_TABLES name);
                   Ok (Some table)
    | None => Ok codon_usage_table
    end;
  match codon_usage_table with
  | None => Raise (ValueError no_table_message)
  | Some table =>
      Ok {| boost := boost; window := window; strand := strand;
            organism := organism; codon_usage_table := table |}
  end.

Definition evaluate (self : t) (sequence : str)
  : result (ObjectiveEvaluation Q) :=
  let w := default (0, len sequence) (window self) in
  let subsequence := py_slice sequence w.1 w.2 in
  let subsequence :=
    if decide (strand self = -1) then reverse_complement subsequence
    else subsequence in
  let length := len subsequence in
  if decide (length `mod` 3 ≠ 0)
  then Raise (ValueError not_multiple_of_3_message)
  else
    usages ← mapM (λ i, from_option KeyError
                     (codon_usage_table self
                        !! py_slice subsequence (3 * i) (3 * (i + 1))))
               (py_range (length `div` 3));
    Ok {| score := np_sum usages; windows := Some [w] |}.

End CodonOptimize.

(** ** The specifications package: locations and evaluations *)

Module Specifications.

(** Modelled from the spec: the class [Location] is not among the sources.
    It is a half-open interval [(start, end)] with a strand, which is [+1],
    [-1] or none. *)
Record Location := {
  start : Z;
  end_ : Z;
  strand : option Z;
}.

(** Modelled from the spec: [Location.extract_sequence] slices
    [[start, end)] and reverse-complements the slice when the strand is
    [-1]; it fails with a range error if [start > end] or either bound is
    outside [[0, len(sequence)]]. *)
Definition extract_sequence (location : Location) (sequence : str)
  : result str :=
  if decide (start location ≤ end_ location
             ∧ 0 ≤ start location ∧ end_ location ≤ len sequence)
  then
    let result := py_slice sequence (start location) (end_ location) in
    if decide (strand location = Some (-1)) then Ok (reverse_complement result)
    else Ok result
  else Raise RangeError.

(** Modelled from the spec: [SpecEvaluation] is not among the sources.  It
    is the value object returned by [evaluate], with a score and the
    violated locations. *)
Record SpecEvaluation (S : Type) := {
  spec_score : S;
  locations : list Location;
}.

Arguments spec_score {S} _.
Arguments locations {S} _.

Module CodonOptimize.

Record t := {
  boost : Q;
  location : option Location;
  species : option str;
  codon_usage_table : gmap str Q;
}.

Definition best_possible_score : Q := 0.

Definition init `{Biotools} (species : option str)
    (location : option Location) (codon_usage_table : option (gmap str Q))
    (boost : Q) : result t :=
  codon_usage_table ←
    match species with
    | Some name => table ← from_option KeyError (CODON_USAGE_TABLES name);
                   Ok (Some table)
    | None => Ok codon_usage_table
    end;
  match codon_usage_table with
  | None => Raise (ValueError "Provide either an species name or a codon usage table")
  | Some table =>
      Ok {| boost := boost; location := location; species := species;
            codon_usage_table := table |}
  end.

(** The usage of a codon and the usage that the table gives under the
    codon's translation. *)
Definition usages `{Biotools} (self : t) (codon : str) : result (Q * Q) :=
  current ← from_option KeyError (codon_usage_table self !! codon);
  translated ← from_option KeyError (CODONS_TRANSLATIONS !! codon);
  optimal ← from_option KeyError (codon_usage_table self !! translated);
  Ok (current, optimal).

(** Unpacking the transposed list of pairs into [current_usage] and
    [optimal_usage]: there is nothing to unpack when there is no codon. *)
Definition unzip_usages (pairs : list (Q * Q)) : result (list Q * list Q) :=
  match pairs with
  | [] => Raise (ValueError "not enough values to unpack")
  | _ => Ok (pairs.*1, pairs.*2)
  end.

Definition evaluate `{Biotools} (self : t) (sequence : str)
  : result (SpecEvaluation Q) :=
  let location_ :=
    default {| start := 0; end_ := len sequence; strand := None |}
      (location self) in
  subsequence ← extract_sequence location_ sequence;
  let length := len subsequence in
  if decide (length `mod` 3 ≠ 0)
  then Raise (ValueError "CodonOptimizationSpecification on a window/sequencewith size %d not multiple of 3)")
  else
    let codons :=
      map (λ i, py_slice subsequence (3 * i) (3 * (i + 1)))
        (py_range (length `div` 3)) in
    pairs ← mapM (usages self) codons;
    arrays ← unzip_usages pairs;
    let '(current_usage, optimal_usage) := arrays in
    let non_optimality :=
      zip_with (λ o c, o - c)%Q optimal_usage current_usage in
    let nonoptimal_indices := int_times 3 (np_nonzero non_optimality) in
    own ← from_option AttributeError (location self);
    nonoptimal_indices ←
      (if decide (strand own = Some (-1))
       then int_minus (end_ own) nonoptimal_indices
       else iadd_int nonoptimal_indices (start own));
    locations ←
      mapM (λ group : list Z,
              first ← from_option IndexError (head group);
              final ← from_option IndexError (last group);
              Ok {| start := first; end_ := final; strand := None |})
        (group_nearby_indices nonoptimal_indices 20);
    Ok {| spec_score := (- np_sum non_optimality)%Q; locations := locations |}.

(** [localized_on_window]: a new object of the class, built from the
    species, the new location and the boost. *)
Definition localized_on_window `{Biotools} (self : t)
    (new_location : Location) (start_codon end_codon : Z) : result t :=
  init (species self) (Some new_location) None (boost self).

End CodonOptimize.

Module EnforceMeltingTemperature.

Record t := {
  mini : float;
  maxi : float;
  target : float;
  location : option Location;
  boost : Q;
}.

(** [__init__]: adding a [mini] or [maxi] that is [None] raises
    [TypeError]; the midpoint [0.5 * (mini + maxi)] is a double. *)
Definition init (mini maxi target : option float)
    (location : option Location) (boost : Q) : result t :=
  match target with
  | Some target =>
      Ok {| mini := target; maxi := target; target := target;
            location := location; boost := boost |}
  | None =>
      mini ← from_option TypeError mini;
      maxi ← from_option TypeError maxi;
      Ok {| mini := mini; maxi := maxi;
            target := (0.5 * (mini + maxi))%float;
            location := location; boost := boost |}
  end.

(** [evaluate]: the score [0.5 * (maxi - mini) - abs(tm - target)] is
    computed in doubles, each operation rounding to the nearest. *)
Definition evaluate `{Biotools} (self : t) (sequence : str)
  : result (SpecEvaluation float) :=
  own ← from_option AttributeError (location self);
  subsequence ← extract_sequence own sequence;
  let tm := predictor subsequence in
  let score :=
    (0.5 * (maxi self - mini self) - abs (tm - target self))%float in
  Ok {| spec_score := score; locations := [own] |}.

End EnforceMeltingTemperature.

End Specifications.

(** ** AvoidIDTHairpins *)

(** [word in rest] on two [str]: [word] occurs in [rest] as a block. *)
Definition py_in (word rest : str) : bool :=
  bool_decide
    (Exists (λ k, py_slice rest k (k + len word) = word)
       (seqZ 0 (len rest - len word + 1))).

Module AvoidIDTHairpins.

Record t := {
  stem_size : Z;
  hairpin_window : Z;
  boost : Q;
}.

Definition best_possible_score : Z := 0.

(** The test of the loop at the position [i]. *)
Definition stem_in_rest (self : t) (sequence reverse : str) (i : Z) : bool :=
  let word := py_slice sequence i (i + stem_size self) in
  let rest :=
    py_slice reverse (- (i + hairpin_window self)) (- (i + stem_size self)) in
  py_in word rest.

Definition evaluate (self : t) (sequence : str) : ObjectiveEvaluation Z :=
  let reverse := reverse_complement sequence in
  let ws :=
    map (λ i, (i, i + hairpin_window self))
      (filter (λ i, stem_in_rest self sequence reverse i = true)
         (py_range (len sequence - hairpin_window self))) in
  {| score := - len ws; windows := Some ws |}.

Definition localized (self : t) (w : interval) : t := self.

End AvoidIDTHairpins.

(** ** DoNotModify *)

(** [a[indices]] for a one-dimensional array and an array of integers: a
    negative index counts from the end, an index outside the array raises
    [IndexError]. *)
Definition np_take {A} (a : list A) (indices : list Z) : result (list A) :=
  mapM (λ i, if decide (- len a ≤ i ∧ i < len a)
             then from_option IndexError (a !! Z.to_nat (i `mod` len a))
             else Raise IndexError)
    indices.

(** [(a == b).min()] for two arrays of the same length: the minimum of an
    empty array raises [ValueError]. *)
Definition np_equal_min {A} `{EqDecision A} (a b : list A) : result bool :=
  match a with
  | [] => Raise (ValueError "zero-size array to reduction operation minimum")
  | _ => Ok (bool_decide (a = b))
  end.

Module DoNotModify.

(** What the objective protects: the [window] when one is given (the
    [indices] are then not looked at), else the integer array [indices].
    The objective built with neither is not modelled. *)
Inductive selection :=
| Window (w : interval)
| Indices (inds : list Z).

Record t := {
  selected : selection;
  boost : Q;
}.

Definition best_possible_score : Z := 1.

Definition evaluate (self : t) (sequence original : str)
  : result (ObjectiveEvaluation Z) :=
  match selected self with
  | Window w =>
      let score :=
        if decide (py_slice sequence w.1 w.2 = py_slice original w.1 w.2)
        then 1 else -1 in
      Ok {| score := score; windows := None |}
  | Indices inds =>
      a ← np_take sequence inds;
      b ← np_take original inds;
      same ← np_equal_min a b;
      Ok {| score := if same : bool then 1 else -1; windows := None |}
  end.

Definition localize (self : t) (w : interval) : localization t :=
  match selected self with
  | Window own =>
      match windows_overlap own w with
      | None => VoidObjective self
      | Some new_window =>
          Localized {| selected := Window new_window; boost := boost self |}
      end
  | Indices inds =>
      let new_indices := filter (λ i, w.1 ≤ i ∧ i ≤ w.2) inds in
      Localized {| selected := Indices new_indices; boost := boost self |}
  end.

End DoNotModify.

(** ** SequenceLengthBounds *)

Module SequenceLengthBounds.

Record t := {
  min_length : Z;
  max_length : option Z;
}.

Definition best_possible_score : Z := 0.

Definition evaluate (self : t) (sequence : str) : ObjectiveEvaluation Z :=
  let L := len sequence in
  let score :=
    match max_length self with
    | None => bool_decide (min_length self ≤ L)
    | Some maxi => bool_decide (min_length self ≤ L ∧ L ≤ maxi)
    end in
  {| score := (if score then 1 else 0) - 1; windows := None |}.

End SequenceLengthBounds.

(** ** A small implementation of the primitives

    Used to run the model on concrete sequences: the proportion of G and C
    for [gc_content], the exact occurrences of a text for [find_matches],
    the Wallace rule for the melting temperature, a database without any
    entry for BLAST and a three-codon genetic code. *)

Definition is_gc (c : ascii) : bool :=
  bool_decide (c = "G"%char ∨ c = "C"%char).

Definition gc_proportion (sequence : str) : Q :=
  (inject_Z (len (filter (λ c, is_gc c = true) sequence))
   / inject_Z (len sequence))%Q.

Definition sliding_gc (sequence : str) (w : Z) : list Q :=
  map (λ i, gc_proportion (py_slice sequence i (i + w)))
    (py_range (len sequence - w + 1)).

Definition exact_matches (pattern sequence : str) (w : option interval)
  : list interval :=
  let w := default (0, len sequence) w in
  omap (λ i, if decide (py_slice sequence i (i + len pattern) = pattern)
             then Some (i, i + len pattern) else None)
    (seqZ w.1 (w.2 - w.1 - len pattern + 1)).

Definition wallace_tm (sequence : str) : float :=
  foldr (λ c tm, ((if is_gc c then 4 else 2) + tm)%float) 0%float sequence.

Definition small_genetic_code : gmap str str :=
  <[py "ATG" := py "M"]> (<[py "AAA" := py "K"]> (<[py "AAG" := py "K"]> ∅)).

Fixpoint codons_of (fuel : nat) (sequence : str) : list str :=
  match fuel, sequence with
  | S fuel', a :: b :: c :: rest => [a; b; c] :: codons_of fuel' rest
  | _, _ => []
  end.

Definition small_translate (sequence : str) : str :=
  flat_map (λ codon, default (py "X") (small_genetic_code !! codon))
    (codons_of (length sequence) sequence).

Definition singleton_groups (indices : pyval) (max_group_spread : Z)
  : list (list Z) :=
  match indices with
  | PyInt n => [[n]]
  | PyArray a => map (λ i, [i]) a
  | PyTuple items => items
  end.

Definition small_biotools : Biotools :=
  {| gc_content_global := gc_proportion;
     gc_content_local := sliding_gc;
     blast_sequence := λ _ _, [];
     translate := small_translate;
     find_matches := exact_matches;
     predictor := wallace_tm;
     CODON_USAGE_TABLES := λ _, None;
     CODONS_TRANSLATIONS := small_genetic_code;
     group_nearby_indices := singleton_groups |}.

(** ** Notions used to state the properties, and examples *)

(** Two regions are compatible when their subsequences differ. *)
Definition regions_differ (r1 r2 : interval) (sequence : str) : bool :=
  bool_decide (py_slice sequence r1.1 r1.2 ≠ py_slice sequence r2.1 r2.2).

Definition two_regions : EnforceRegionsCompatibility.t :=
  {| EnforceRegionsCompatibility.regions := [(0, 3); (3, 6)];
     EnforceRegionsCompatibility.compatibility_condition := regions_differ;
     EnforceRegionsCompatibility.boost := 1 |}.

Definition gc_example : EnforceGCContent.t :=
  EnforceGCContent.init (2 # 5) (3 # 5) None (Some 3) (Some (2, 8)) 1.

Definition blast_example : AvoidBlastMatches.t :=
  {| AvoidBlastMatches.blast_db := py "ecoli_db/ecoli_db";
     AvoidBlastMatches.word_size := 4;
     AvoidBlastMatches.perc_identity := 100;
     AvoidBlastMatches.num_alignments := 1000;
     AvoidBlastMatches.num_threads := 3;
     AvoidBlastMatches.min_align_length := 20;
     AvoidBlastMatches.window := Some (2, 8) |}.

Definition translation_example : EnforceTranslation.t :=
  {| EnforceTranslation.boost := 1;
     EnforceTranslation.window := Some (2, 8);
     EnforceTranslation.translation := Some (py "MK");
     EnforceTranslation.strand := 1;
     EnforceTranslation.initialize_translation_from_problem := false |}.

Definition within_bounds (S : EnforceGCContent.t) (g : Q) : Prop :=
  (EnforceGCContent.gc_min S <= g ∧ g <= EnforceGCContent.gc_max S)%Q.

Definition primer_location : Specifications.Location :=
  {| Specifications.start := 0; Specifications.end_ := 20;
     Specifications.strand := None |}.

Definition primer_sequence : str := py "ATGCATGCATGCATGCATGC".

Definition primer_tm : Specifications.EnforceMeltingTemperature.t :=
  {| Specifications.EnforceMeltingTemperature.mini := 55;
     Specifications.EnforceMeltingTemperature.maxi := 70;
     Specifications.EnforceMeltingTemperature.target := 62.5;
     Specifications.EnforceMeltingTemperature.location := Some primer_location;
     Specifications.EnforceMeltingTemperature.boost := 1 |}.

(** Thirty-five A: a temperature of 70 by the Wallace rule. *)
Definition warm_sequence : str := repeat "A"%char 35.

Definition warm_location : Specifications.Location :=
  {| Specifications.start := 0; Specifications.end_ := 35;
     Specifications.strand := None |}.

Definition gc_at_most_four_fifths : EnforceGCContent.t :=
  EnforceGCContent.init 0 (4 # 5) None (Some 5) None 1.

(** The positions under which the first loop records the key [k], in the
    order of the loop. *)
Definition forward_occurrences (length : Z) (sequence k : str)
  : list interval :=
  map (λ i, (i, i + length))
    (filter (λ i, py_slice sequence i (i + length) = k)
       (py_range (len sequence - length))).

(** The positions under which the second loop records the key [k]. *)
Definition reverse_occurrences (length : Z) (sequence k : str)
  : list interval :=
  map (λ i, (len sequence - (i + length), len sequence - i))
    (filter (λ i, py_slice (reverse_complement sequence) i (i + length) = k)
       (py_range (len sequence - length))).

Definition recorded_occurrences (length : Z)
    (include_reverse_complement : bool) (sequence k : str) : list interval :=
  forward_occurrences length sequence k
  ++ (if include_reverse_complement
      then reverse_occurrences length sequence k else []).

(** The keys of the dictionary with more than one recorded position. *)
Definition repeated_keys (m : gmap str (list interval)) : list str :=
  (filter (λ kv : str * list interval, (1 < length kv.2)%nat)
     (map_to_list m)).*1.

(** [w] is a position of [ps] with the least start. *)
Definition is_earliest (w : interval) (ps : list interval) : Prop :=
  w ∈ ps ∧ ∀ p, p ∈ ps → w.1 ≤ p.1.

(** What the evaluation makes of the sorted windows. *)
Definition scan_result (ws : list interval) : ObjectiveEvaluation Z :=
  match ws with
  | [] => {| score := 1; windows := None |}
  | _ => {| score := - len ws; windows := Some ws |}
  end.

Definition lysine_usage : gmap str Q :=
  <[py "AAA" := (3 # 4)%Q]>
    (<[py "AAG" := (1 # 4)%Q]> (<[py "K" := (3 # 4)%Q]> ∅)).

Definition two_lysines : Specifications.CodonOptimize.t :=
  {| Specifications.CodonOptimize.boost := 1;
     Specifications.CodonOptimize.location :=
       Some {| Specifications.start := 0; Specifications.end_ := 6;
               Specifications.strand := Some 1 |};
     Specifications.CodonOptimize.species := None;
     Specifications.CodonOptimize.codon_usage_table := lysine_usage |}.

Definition two_lysines_objective : CodonOptimize.t :=
  {| CodonOptimize.boost := 1; CodonOptimize.window := Some (0, 6);
     CodonOptimize.strand := 1; CodonOptimize.organism := None;
     CodonOptimize.codon_usage_table := lysine_usage |}.

(** A CodonOptimize of the specifications package on a location without
    any codon. *)
Definition no_codons : Specifications.CodonOptimize.t :=
  {| Specifications.CodonOptimize.boost := 1;
     Specifications.CodonOptimize.location :=
       Some {| Specifications.start := 0; Specifications.end_ := 0;
               Specifications.strand := None |};
     Specifications.CodonOptimize.species := None;
     Specifications.CodonOptimize.codon_usage_table := lysine_usage |}.

Definition one_start_codon : EnforcePattern.t :=
  {| EnforcePattern.pattern := py "ATG"; EnforcePattern.window := None;
     EnforcePattern.occurences := 1; EnforcePattern.boost := 1 |}.

(** The windows that the loop of [EnforceGCContent.evaluate] reports from
    the run that starts at [current_start] and so far ends at [last_end],
    for the breach starts [rest] still to come. *)
Fixpoint merged_runs (gcw wstart current_start last_end : Z) (rest : list Z)
  : list interval :=
  match rest with
  | [] => [(wstart + current_start, wstart + last_end)]
  | i :: rest' =>
      if decide (i > last_end + gcw)
      then (wstart + current_start, wstart + last_end)
           :: merged_runs gcw wstart i (i + gcw) rest'
      else merged_runs gcw wstart current_start (i + gcw) rest'
  end.

(** What the closure of [EnforceRegionsCompatibility.localized] lists for
    a region and an included region, for the compatibility condition on a
    given sequence. *)
Definition localized_entry (compatible : interval → interval → bool)
    (region included_region : interval) : list interval :=
  if decide (region ≠ included_region) then
    if compatible included_region region then [] else [region]
  else [].

(** * Properties *)

(** ** Slices and windows *)

Lemma len_nonneg {A} (s : list A) : 0 ≤ len s.
Proof. unfold len. lia. Qed.

Lemma py_slice_whole {A} (s : list A) (b : Z) :
  len s ≤ b → py_slice s 0 b = s.
Proof.
  intros Hb. pose proof (len_nonneg s) as Hn.
  unfold py_slice, slice_index.
  repeat case_decide; try lia.
  rewrite (Z.min_l 0), (Z.min_r b) by lia. simpl.
  unfold len. rewrite Z.sub_0_r, Nat2Z.id. apply firstn_all.
Qed.

Lemma length_py_slice {A} (s : list A) (a b : Z) :
  0 ≤ a → a ≤ b →
  len (py_slice s a b) = Z.min b (len s) - Z.min a (len s).
Proof.
  intros Ha Hab. pose proof (len_nonneg s) as Hn.
  unfold py_slice, slice_index.
  repeat case_decide; try lia.
  unfold len in *. rewrite length_take, length_drop. lia.
Qed.

Lemma windows_overlap_comm (w1 w2 : interval) :
  windows_overlap w1 w2 = windows_overlap w2 w1.
Proof.
  unfold windows_overlap. rewrite (Z.max_comm w1.1), (Z.min_comm w1.2).
  reflexivity.
Qed.

Lemma windows_overlap_None (w1 w2 : interval) :
  windows_overlap w1 w2 = None ↔ ¬ windows_share_position w1 w2.
Proof.
  unfold windows_overlap, windows_share_position. case_decide; split.
  - discriminate.
  - intros Hno. exfalso. apply Hno. exists (Z.max w1.1 w2.1). lia.
  - intros _ [p Hp]. lia.
  - reflexivity.
Qed.

Lemma windows_overlap_covered (own W : interval) :
  own.1 < own.2 → window_covers W own → windows_overlap own W = Some own.
Proof.
  destruct own as [a b], W as [c d]. unfold window_covers, windows_overlap.
  simpl. intros Hne [Hc Hd]. case_decide; [|lia].
  f_equal. f_equal; lia.
Qed.

(** ** Localization on a covering window *)

Section Localization.
Context `{Biotools}.

Lemma breaches_windows_local (gcw wstart wend wend' : Z) (bs : list Z) :
  EnforceGCContent.breaches_windows (Some gcw) wstart wend bs
  = EnforceGCContent.breaches_windows (Some gcw) wstart wend' bs.
Proof. destruct bs as [|first [|second rest]]; reflexivity. Qed.

Lemma gc_localized_covering (S : EnforceGCContent.t) (W : interval)
    (sequence : str) :
  let own := EnforceGCContent.effective_window S sequence in
  own.1 < own.2 → window_covers W own →
  (∀ g, EnforceGCContent.gc_window S = Some g → 0 ≤ g) →
  ∃ S', EnforceGCContent.localized S W = Localized S'
        ∧ EnforceGCContent.evaluate S' sequence
          = EnforceGCContent.evaluate S sequence.
Proof.
  destruct S as [obj lo hi gcw [own|] boost];
    unfold EnforceGCContent.effective_window, EnforceGCContent.localized;
    simpl; intros Hne Hcov Hg.
  - rewrite (windows_overlap_covered own W Hne Hcov). eexists. split; reflexivity.
  - destruct Hcov as [Hlo Hhi]. simpl in Hlo, Hhi.
    destruct gcw as [g|]; [|eexists; split; reflexivity].
    specialize (Hg g eq_refl). eexists. split; [reflexivity|].
    unfold EnforceGCContent.evaluate, EnforceGCContent.breaches,
      EnforceGCContent.subsequence, EnforceGCContent.effective_window,
      EnforceGCContent.copy_with_window.
    simpl. rewrite Z.max_l by lia.
    rewrite !py_slice_whole by lia.
    rewrite (breaches_windows_local g 0 (W.2 + g) (len sequence)).
    reflexivity.
Qed.

Lemma blast_localized_covering (S : AvoidBlastMatches.t) (W : interval)
    (sequence : str) :
  let own := default (0, len sequence) (AvoidBlastMatches.window S) in
  own.1 < own.2 → window_covers W own →
  0 ≤ AvoidBlastMatches.min_align_length S →
  ∃ S', AvoidBlastMatches.localized S W = Localized S'
        ∧ AvoidBlastMatches.evaluate S' sequence
          = AvoidBlastMatches.evaluate S sequence.
Proof.
  destruct S as [db ws pi na nt mal [own|]];
    unfold AvoidBlastMatches.localized; simpl; intros Hne Hcov Hr.
  - rewrite (windows_overlap_covered own W Hne Hcov). eexists. split; reflexivity.
  - destruct Hcov as [Hlo Hhi]. simpl in Hlo, Hhi.
    eexists. split; [reflexivity|].
    unfold AvoidBlastMatches.evaluate, AvoidBlastMatches.copy_with_window.
    simpl. rewrite Z.max_l by lia.
    rewrite !py_slice_whole by lia. reflexivity.
Qed.

Lemma translation_localized_covering (S : EnforceTranslation.t)
    (own W : interval) (tr sequence : str) :
  EnforceTranslation.window S = Some own →
  EnforceTranslation.translation S = Some tr →
  own.2 - own.1 = 3 * len tr →
  own.1 < own.2 → window_covers W own →
  ∃ S', EnforceTranslation.localized S W = Ok (Localized S')
        ∧ EnforceTranslation.evaluate S' sequence
          = EnforceTranslation.evaluate S sequence.
Proof.
  destruct S as [boost w t strand flag]. simpl. intros -> -> Hsize Hne Hcov.
  unfold EnforceTranslation.localized. simpl.
  rewrite windows_overlap_comm, (windows_overlap_covered own W Hne Hcov).
  destruct own as [a b]. simpl in *.
  replace (a - a) with 0 by lia. replace (b - a) with (len tr * 3) by lia.
  rewrite Z.div_0_l, Z.div_mul by lia.
  rewrite py_slice_whole by lia.
  replace (a + 3 * 0) with a by lia.
  replace (Z.min b (a + 3 * (len tr + 1))) with b by lia.
  unfold EnforceTranslation.init. simpl.
  case_decide; [lia|]. eexists. split; reflexivity.
Qed.

End Localization.

(** C1 (amended).  For EnforceGCContent, AvoidBlastMatches and
    EnforceTranslation, and every window [W] that fully covers the
    objective's own non-empty window (the whole sequence when the window is
    [None]; the sliding-window width and the alignment radius are not
    negative; the translation has the length the constructor checks), the
    objective returned by [localized(W)] evaluates on every sequence to the
    same evaluation, score and violated windows, as the objective itself. *)
Theorem localized_on_covering_window_sound `{Biotools} :
  (∀ (S : EnforceGCContent.t) (W : interval) (sequence : str),
     let own := EnforceGCContent.effective_window S sequence in
     own.1 < own.2 → window_covers W own →
     (∀ g, EnforceGCContent.gc_window S = Some g → 0 ≤ g) →
     ∃ S', EnforceGCContent.localized S W = Localized S'
           ∧ EnforceGCContent.evaluate S' sequence
             = EnforceGCContent.evaluate S sequence)
  ∧ (∀ (S : AvoidBlastMatches.t) (W : interval) (sequence : str),
       let own := default (0, len sequence) (AvoidBlastMatches.window S) in
       own.1 < own.2 → window_covers W own →
       0 ≤ AvoidBlastMatches.min_align_length S →
       ∃ S', AvoidBlastMatches.localized S W = Localized S'
             ∧ AvoidBlastMatches.evaluate S' sequence
               = AvoidBlastMatches.evaluate S sequence)
  ∧ (∀ (S : EnforceTranslation.t) (own W : interval) (tr sequence : str),
       EnforceTranslation.window S = Some own →
       EnforceTranslation.translation S = Some tr →
       own.2 - own.1 = 3 * len tr →
       own.1 < own.2 → window_covers W own →
       ∃ S', EnforceTranslation.localized S W = Ok (Localized S')
             ∧ EnforceTranslation.evaluate S' sequence
               = EnforceTranslation.evaluate S sequence).
Proof.
  split; [|split].
  - apply gc_localized_covering.
  - apply blast_localized_covering.
  - apply translation_localized_covering.
Qed.

(** On a window covering both regions, the localized
    EnforceRegionsCompatibility counts the one incompatible pair twice and
    reports no window. *)
Lemma regions_localized_differs :
  let W := (0, 6) in
  let sequence := py "AAAAAA" in
  let whole := EnforceRegionsCompatibility.evaluate two_regions sequence in
  let local :=
    objective_evaluate (EnforceRegionsCompatibility.localized two_regions W)
      sequence in
  Forall (window_covers W) (EnforceRegionsCompatibility.regions two_regions)
  ∧ score whole = -1 ∧ violated_windows whole ≡ₚ [(0, 3); (3, 6)]
  ∧ score local = -2 ∧ violated_windows local = []
  ∧ ¬ (score local = score whole
       ∧ violated_windows local = violated_windows whole).
Proof.
  simpl. split; [|split; [|split; [|split; [|split]]]].
  - repeat constructor; simpl; lia.
  - vm_compute. reflexivity.
  - vm_compute. reflexivity.
  - vm_compute. reflexivity.
  - vm_compute. reflexivity.
  - intros [Hs _]. vm_compute in Hs. discriminate.
Qed.

Lemma localized_on_covering_window_sound_witness :
  let sequence := py "CCATGAAACC" in
  (∃ S', EnforceGCContent.localized gc_example (0, 10) = Localized S'
         ∧ EnforceGCContent.evaluate (H := small_biotools) S' sequence
           = EnforceGCContent.evaluate (H := small_biotools) gc_example
               sequence)
  ∧ (∃ S', AvoidBlastMatches.localized blast_example (0, 10) = Localized S'
           ∧ AvoidBlastMatches.evaluate (H := small_biotools) S' sequence
             = AvoidBlastMatches.evaluate (H := small_biotools) blast_example
                 sequence)
  ∧ (∃ S', EnforceTranslation.localized translation_example (0, 10)
           = Ok (Localized S')
           ∧ EnforceTranslation.evaluate (H := small_biotools) S' sequence
             = EnforceTranslation.evaluate (H := small_biotools)
                 translation_example sequence).
Proof.
  destruct (@localized_on_covering_window_sound small_biotools)
    as (Hgc & Hblast & Htr).
  split; [|split].
  - apply Hgc.
    + simpl. lia.
    + split; simpl; lia.
    + intros g Hg. injection Hg as <-. lia.
  - apply Hblast.
    + simpl. lia.
    + split; simpl; lia.
    + simpl. lia.
  - apply (Htr translation_example (2, 8) (0, 10) (py "MK")).
    + reflexivity.
    + reflexivity.
    + reflexivity.
    + simpl. lia.
    + split; simpl; lia.
Defined.

(** ** Localization on a disjoint window *)

(** C2.  For EnforceGCContent, AvoidBlastMatches and EnforceTranslation
    carrying an explicit window, and every window [W] that shares no
    position with it, [localized(W)] returns the void objective, whose
    evaluation on every sequence has the best possible score and reports no
    violated window. *)
Theorem localized_on_disjoint_window_void :
  (∀ (S : EnforceGCContent.t) (own W : interval),
     EnforceGCContent.window S = Some own →
     ¬ windows_share_position own W →
     EnforceGCContent.localized S W = VoidObjective S)
  ∧ (∀ (S : AvoidBlastMatches.t) (own W : interval),
       AvoidBlastMatches.window S = Some own →
       ¬ windows_share_position own W →
       AvoidBlastMatches.localized S W = VoidObjective S)
  ∧ (∀ (S : EnforceTranslation.t) (own W : interval),
       EnforceTranslation.window S = Some own →
       ¬ windows_share_position own W →
       EnforceTranslation.localized S W = Ok (VoidObjective S))
  ∧ (∀ sequence : str,
       score (VoidObjective.evaluate sequence)
       = VoidObjective.best_possible_score
       ∧ violated_windows (VoidObjective.evaluate sequence) = []).
Proof.
  split; [|split; [|split]].
  - intros S own W Hown Hdis. apply windows_overlap_None in Hdis.
    unfold EnforceGCContent.localized. rewrite Hown, Hdis. reflexivity.
  - intros S own W Hown Hdis. apply windows_overlap_None in Hdis.
    unfold AvoidBlastMatches.localized. rewrite Hown, Hdis. reflexivity.
  - intros S own W Hown Hdis. apply windows_overlap_None in Hdis.
    unfold EnforceTranslation.localized.
    rewrite Hown, windows_overlap_comm, Hdis. reflexivity.
  - intros sequence. split; reflexivity.
Qed.

Lemma localized_on_disjoint_window_void_witness :
  EnforceGCContent.localized gc_example (9, 12) = VoidObjective gc_example
  ∧ AvoidBlastMatches.localized blast_example (0, 1)
    = VoidObjective blast_example
  ∧ EnforceTranslation.localized translation_example (12, 20)
    = Ok (VoidObjective translation_example).
Proof.
  destruct localized_on_disjoint_window_void as (Hgc & Hblast & Htr & _).
  split; [|split].
  - apply (Hgc gc_example (2, 8) (9, 12)); [reflexivity|].
    intros [p Hp]. simpl in Hp. lia.
  - apply (Hblast blast_example (2, 8) (0, 1)); [reflexivity|].
    intros [p Hp]. simpl in Hp. lia.
  - apply (Htr translation_example (2, 8) (12, 20)); [reflexivity|].
    intros [p Hp]. simpl in Hp. lia.
Defined.

(** ** Bound constraints *)

Section Bounds.
Context `{Biotools}.

Lemma breach_nonneg (S : EnforceGCContent.t) (g : Q) :
  (0 <= EnforceGCContent.breach S g)%Q.
Proof.
  unfold EnforceGCContent.breach.
  pose proof (Q.le_max_l 0 (EnforceGCContent.gc_min S - g)).
  pose proof (Q.le_max_l 0 (g - EnforceGCContent.gc_max S)).
  lra.
Qed.

Lemma breach_positive_iff (S : EnforceGCContent.t) (g : Q) :
  (0 < EnforceGCContent.breach S g)%Q ↔ ¬ within_bounds S g.
Proof.
  unfold EnforceGCContent.breach, within_bounds.
  destruct (Q.max_spec 0 (EnforceGCContent.gc_min S - g)) as [[? ->]|[? ->]];
    destruct (Q.max_spec 0 (g - EnforceGCContent.gc_max S)) as [[? ->]|[? ->]];
    split; intros; lra.
Qed.

Lemma np_sum_nonneg (a : list Q) :
  Forall (λ x, 0 <= x)%Q a → (0 <= np_sum a)%Q.
Proof. induction 1; simpl; lra. Qed.

Lemma np_sum_zero_iff (a : list Q) :
  Forall (λ x, 0 <= x)%Q a →
  (- np_sum a == 0)%Q ↔ Forall (λ x, ¬ 0 < x)%Q a.
Proof.
  induction 1 as [|x a Hx Ha IH]; simpl.
  - split; [constructor | intros; lra].
  - pose proof (np_sum_nonneg a Ha). rewrite Forall_cons. split.
    + intros Hs. split; [lra|]. apply IH. lra.
    + intros [Hx0 Hrest]. apply IH in Hrest. lra.
Qed.

Lemma positive_indices_from_nil (i : Z) (a : list Q) :
  positive_indices_from i a = [] ↔ Forall (λ x, ¬ 0 < x)%Q a.
Proof.
  revert i. induction a as [|x a IH]; intros i; simpl.
  - split; [constructor | reflexivity].
  - rewrite Forall_cons. destruct (Qlt_le_dec 0 x) as [Hx|Hx].
    + split; [discriminate | intros [Hn _]; contradiction].
    + rewrite IH. split; [intros Ha; split; [lra | exact Ha] | tauto].
Qed.

Lemma length_positive_indices_from (i : Z) (a : list Q) :
  (length (positive_indices_from i a) ≤ length a)%nat.
Proof.
  revert i. induction a as [|x a IH]; intros i; simpl; [lia|].
  destruct (Qlt_le_dec 0 x); simpl; specialize (IH (i + 1)); lia.
Qed.

Lemma breaches_windows_Some (gcw wstart wend : Z) (bs : list Z) :
  ∃ ws, EnforceGCContent.breaches_windows (Some gcw) wstart wend bs = Ok ws
        ∧ (ws = [] ↔ bs = []).
Proof.
  destruct bs as [|first [|second rest]]; simpl.
  - eexists. split; [reflexivity | tauto].
  - eexists. split; [reflexivity | split; discriminate].
  - destruct (foldl _ _ _) as [[acc cs] le].
    eexists. split; [reflexivity|].
    split; [intros Hnil; destruct acc; discriminate | discriminate].
Qed.

Lemma breaches_windows_short (gcw : option Z) (wstart wend : Z) (bs : list Z) :
  (length bs ≤ 1)%nat →
  ∃ ws, EnforceGCContent.breaches_windows gcw wstart wend bs = Ok ws
        ∧ (ws = [] ↔ bs = []).
Proof.
  destruct bs as [|first [|second rest]]; simpl; intros Hlen; [| |lia].
  - eexists. split; [reflexivity | tauto].
  - destruct gcw; eexists; (split; [reflexivity | split; discriminate]).
Qed.

(** The evaluation of EnforceGCContent returns, and passes exactly when
    every measured proportion is within the bounds. *)
Lemma gc_evaluate_pass_iff (S : EnforceGCContent.t) (sequence : str) :
  ∃ e, EnforceGCContent.evaluate S sequence = Ok e
       ∧ (((score e == 0)%Q ∧ violated_windows e = [])
          ↔ Forall (within_bounds S)
              (gc_content (EnforceGCContent.subsequence S sequence)
                 (EnforceGCContent.gc_window S)))
       ∧ ((score e == 0)%Q ↔ violated_windows e = [])
       ∧ (score e <= 0)%Q.
Proof.
  unfold EnforceGCContent.evaluate.
  set (b := EnforceGCContent.breaches S sequence).
  set (w := EnforceGCContent.effective_window S sequence).
  assert (Hnn : Forall (λ x, 0 <= x)%Q b).
  { unfold b, EnforceGCContent.breaches. apply Forall_map, Forall_forall.
    intros g _. apply breach_nonneg. }
  assert (Hwin : Forall (λ x, ¬ 0 < x)%Q b
                 ↔ Forall (within_bounds S)
                     (gc_content (EnforceGCContent.subsequence S sequence)
                        (EnforceGCContent.gc_window S))).
  { unfold b, EnforceGCContent.breaches. rewrite Forall_map.
    apply Forall_iff. intros g. simpl. rewrite breach_positive_iff.
    split; [|tauto]. unfold within_bounds.
    intros Hnn'. destruct (Qlt_le_dec g (EnforceGCContent.gc_min S));
      destruct (Qlt_le_dec (EnforceGCContent.gc_max S) g);
      try (exfalso; apply Hnn'; intros [? ?]; lra). split; assumption. }
  assert (Hws : ∃ ws, EnforceGCContent.breaches_windows
                        (EnforceGCContent.gc_window S) w.1 w.2
                        (positive_indices b) = Ok ws
                      ∧ (ws = [] ↔ positive_indices b = [])).
  { destruct (EnforceGCContent.gc_window S) as [gcw|] eqn:Hgcw.
    - apply breaches_windows_Some.
    - apply breaches_windows_short.
      etransitivity; [apply length_positive_indices_from|].
      unfold b, EnforceGCContent.breaches. rewrite Hgcw. simpl. lia. }
  destruct Hws as (ws & -> & Hnil). simpl. eexists. split; [reflexivity|].
  unfold violated_windows. simpl.
  rewrite Hnil. unfold positive_indices. rewrite positive_indices_from_nil.
  rewrite (np_sum_zero_iff b Hnn). rewrite <- Hwin.
  pose proof (np_sum_nonneg b Hnn) as Hsum.
  split; [tauto|]. split; [tauto | lra].
Qed.

End Bounds.

Lemma tm_init_location (mini maxi target : option float)
    (location : option Specifications.Location) (boost : Q)
    (S : Specifications.EnforceMeltingTemperature.t) :
  Specifications.EnforceMeltingTemperature.init mini maxi target location boost
  = Ok S →
  Specifications.EnforceMeltingTemperature.location S = location.
Proof.
  unfold Specifications.EnforceMeltingTemperature.init.
  destruct target as [t|].
  - intros [= <-]. reflexivity.
  - destruct mini as [mi|]; [|discriminate].
    destruct maxi as [ma|]; [|discriminate].
    intros [= <-]. reflexivity.
Qed.

Section MeltingTemperature.
Context `{Biotools}.

(** The evaluation of EnforceMeltingTemperature always reports the
    location of the specification, whatever the temperature; its score is
    the rounded difference of the half width and the distance to the
    target. *)
Lemma tm_evaluate_reports_location (mini maxi target : option float)
    (own : Specifications.Location) (boost : Q)
    (S : Specifications.EnforceMeltingTemperature.t)
    (sequence subsequence : str) :
  Specifications.EnforceMeltingTemperature.init mini maxi target (Some own)
    boost = Ok S →
  Specifications.extract_sequence own sequence = Ok subsequence →
  ∃ e, Specifications.EnforceMeltingTemperature.evaluate S sequence = Ok e
       ∧ Specifications.locations e = [own]
       ∧ Specifications.spec_score e
         = (0.5 * (Specifications.EnforceMeltingTemperature.maxi S
                   - Specifications.EnforceMeltingTemperature.mini S)
            - abs (predictor subsequence
                   - Specifications.EnforceMeltingTemperature.target S))%float.
Proof.
  intros Hinit Hsub. apply tm_init_location in Hinit as Hloc.
  unfold Specifications.EnforceMeltingTemperature.evaluate.
  rewrite Hloc. simpl. rewrite Hsub. simpl.
  eexists. split; [reflexivity|]. split; reflexivity.
Qed.

End MeltingTemperature.

(** C3 (amended).  For EnforceGCContent with any bounds and sliding window,
    on every sequence, the evaluation returns score 0 and an empty list of
    violated windows if and only if every measured proportion lies within
    [gc_min, gc_max].  For EnforceMeltingTemperature built by its
    constructor, on every sequence from which its location can be
    extracted, the evaluation returns and reports exactly the location of
    the specification, whatever the measured temperature; its score is the
    double [0.5 * (maxi - mini) - abs(tm - target)]. *)
Theorem bound_constraints_pass_condition `{Biotools} :
  (∀ (S : EnforceGCContent.t) (sequence : str),
     ∃ e, EnforceGCContent.evaluate S sequence = Ok e
          ∧ (((score e == 0)%Q ∧ violated_windows e = [])
             ↔ Forall (within_bounds S)
                 (gc_content (EnforceGCContent.subsequence S sequence)
                    (EnforceGCContent.gc_window S))))
  ∧ (∀ (mini maxi target : option float) (own : Specifications.Location)
       (boost : Q) (S : Specifications.EnforceMeltingTemperature.t)
       (sequence subsequence : str),
       Specifications.EnforceMeltingTemperature.init mini maxi target
         (Some own) boost = Ok S →
       Specifications.extract_sequence own sequence = Ok subsequence →
       ∃ e, Specifications.EnforceMeltingTemperature.evaluate S sequence = Ok e
            ∧ Specifications.locations e = [own]
            ∧ Specifications.spec_score e
              = (0.5 * (Specifications.EnforceMeltingTemperature.maxi S
                        - Specifications.EnforceMeltingTemperature.mini S)
                 - abs (predictor subsequence
                        - Specifications.EnforceMeltingTemperature.target S)
                )%float).
Proof.
  split.
  - intros S sequence.
    destruct (gc_evaluate_pass_iff S sequence) as (e & He & Hiff & _ & _).
    exists e. split; assumption.
  - apply tm_evaluate_reports_location.
Qed.

(** A melting temperature of 60 within the bounds 55 and 70: the evaluation
    has score 5 and reports the location. *)
Lemma melting_temperature_within_bounds_reports :
  Specifications.EnforceMeltingTemperature.init (Some 55%float)
    (Some 70%float) None (Some primer_location) 1 = Ok primer_tm
  ∧ wallace_tm primer_sequence = 60%float
  ∧ (55 <=? wallace_tm primer_sequence)%float = true
  ∧ (wallace_tm primer_sequence <=? 70)%float = true
  ∧ ∃ e, Specifications.EnforceMeltingTemperature.evaluate
           (H := small_biotools) primer_tm primer_sequence = Ok e
         ∧ Specifications.spec_score e = 5%float
         ∧ Specifications.locations e = [primer_location]
         ∧ ¬ ((Specifications.spec_score e =? 0)%float = true
              ∧ Specifications.locations e = []).
Proof.
  split; [reflexivity|]. split; [reflexivity|].
  split; [reflexivity|]. split; [reflexivity|].
  eexists. split; [vm_compute; reflexivity|]. simpl.
  split; [reflexivity|]. split; [reflexivity|].
  intros [_ Hnil]. discriminate.
Qed.

Lemma bound_constraints_pass_condition_witness :
  ∃ e, Specifications.EnforceMeltingTemperature.evaluate
         (H := small_biotools) primer_tm primer_sequence = Ok e
       ∧ Specifications.locations e = [primer_location]
       ∧ Specifications.spec_score e
         = (0.5 * (70 - 55) - abs (wallace_tm primer_sequence - 62.5))%float.
Proof.
  apply (proj2 (@bound_constraints_pass_condition small_biotools)
           (Some 55%float) (Some 70%float) None primer_location 1%Q primer_tm
           primer_sequence primer_sequence).
  - reflexivity.
  - vm_compute. reflexivity.
Defined.

(** The sign of the rounded score does not decide the bounds.  With the
    bounds 55.1 and 70 the target is the double nearest to 62.55; at a
    temperature of 70, which is within the bounds, the half width and the
    distance to the target round to different doubles and the score is
    below 0. *)
Lemma melting_temperature_score_rounds_below_zero :
  let mini := (551 / 10)%float in
  ∃ S e,
    Specifications.EnforceMeltingTemperature.init (Some mini) (Some 70%float)
      None (Some warm_location) 1 = Ok S
    ∧ wallace_tm warm_sequence = 70%float
    ∧ (mini <=? wallace_tm warm_sequence)%float = true
    ∧ (wallace_tm warm_sequence <=? 70)%float = true
    ∧ Specifications.EnforceMeltingTemperature.evaluate (H := small_biotools)
        S warm_sequence = Ok e
    ∧ (Specifications.spec_score e <? 0)%float = true
    ∧ Specifications.locations e = [warm_location].
Proof.
  eexists _, _. split; [reflexivity|].
  split; [vm_compute; reflexivity|].
  split; [vm_compute; reflexivity|].
  split; [vm_compute; reflexivity|].
  split; [vm_compute; reflexivity|].
  split; [vm_compute; reflexivity | reflexivity].
Qed.

(** ** Merging of breach runs *)

Lemma merge_step_run (W wstart : Z) (acc : list interval)
    (current_start i : Z) (k : nat) :
  0 < W →
  foldl (EnforceGCContent.merge_step W wstart) (acc, current_start, i + W)
    (seqZ (i + 1) (Z.of_nat k))
  = (acc, current_start, i + Z.of_nat k + W).
Proof.
  intros HW. revert i. induction k as [|k IH]; intros i.
  - simpl. f_equal. lia.
  - rewrite seqZ_cons by lia. simpl. rewrite decide_False by lia.
    replace (Z.pred (Z.of_nat (S k))) with (Z.of_nat k) by lia.
    replace (Z.succ (i + 1)) with (i + 1 + 1) by lia.
    rewrite IH. f_equal. lia.
Qed.

Lemma breaches_windows_many (W wstart wend first : Z) (rest : list Z) :
  rest ≠ [] →
  EnforceGCContent.breaches_windows (Some W) wstart wend (first :: rest)
  = let '(acc, current_start, last_end) :=
      foldl (EnforceGCContent.merge_step W wstart) ([], first, first + W)
        rest in
    Ok (acc ++ [(wstart + current_start, wstart + last_end)]).
Proof. destruct rest; [contradiction | reflexivity]. Qed.

(** C4.  For EnforceGCContent with sliding-window width [W], and two breach
    regions, the breach starts [a .. a + k1] and [b .. b + k2]: when [b]
    lies more than [W] after the end [a + k1 + W] of the first run, the
    evaluation reports two separate windows; when it lies less than [W]
    after it, the evaluation reports the single merged window.  With
    [W = 5] on a window starting at 0, the breach starts 0 and 20 give
    exactly the windows (0, 5) and (20, 25), and the breach starts 0 and 6
    give exactly the window (0, 11). *)
Theorem breach_runs_merging `{Biotools} (S : EnforceGCContent.t)
    (sequence : str) (W a b : Z) (k1 k2 : nat) :
  EnforceGCContent.gc_window S = Some W →
  0 < W →
  positive_indices (EnforceGCContent.breaches S sequence)
  = seqZ a (Z.of_nat k1 + 1) ++ seqZ b (Z.of_nat k2 + 1) →
  let wstart := (EnforceGCContent.effective_window S sequence).1 in
  let a_last := a + Z.of_nat k1 in
  let b_last := b + Z.of_nat k2 in
  ∃ e, EnforceGCContent.evaluate S sequence = Ok e
       ∧ (b - (a_last + W) > W →
          violated_windows e
          = [(wstart + a, wstart + (a_last + W));
             (wstart + b, wstart + (b_last + W))])
       ∧ (b - (a_last + W) < W →
          violated_windows e = [(wstart + a, wstart + (b_last + W))])
       ∧ (W = 5 → wstart = 0 → a = 0 → k1 = 0%nat → b = 20 → k2 = 0%nat →
          violated_windows e = [(0, 5); (20, 25)])
       ∧ (W = 5 → wstart = 0 → a = 0 → k1 = 0%nat → b = 6 → k2 = 0%nat →
          violated_windows e = [(0, 11)]).
Proof.
  intros HW Hpos Hstarts wstart a_last b_last.
  unfold EnforceGCContent.evaluate.
  rewrite HW, Hstarts. fold wstart.
  rewrite (seqZ_cons a) by lia.
  replace (Z.pred (Z.of_nat k1 + 1)) with (Z.of_nat k1) by lia.
  replace (Z.succ a) with (a + 1) by lia.
  rewrite (seqZ_cons b) by lia.
  replace (Z.pred (Z.of_nat k2 + 1)) with (Z.of_nat k2) by lia.
  replace (Z.succ b) with (b + 1) by lia.
  rewrite <- app_comm_cons, breaches_windows_many
    by (intros Hnil; apply app_eq_nil in Hnil as [_ Hnil]; discriminate).
  rewrite foldl_app, merge_step_run by exact Hpos.
  simpl. fold a_last.
  case_decide as Hfar; rewrite merge_step_run by exact Hpos; fold b_last;
    simpl; (eexists; split; [reflexivity|]); unfold violated_windows; simpl.
  - split; [reflexivity|]. split; [lia|]. split; [|lia].
    unfold a_last, b_last. intros -> -> -> -> -> ->. reflexivity.
  - split; [lia|]. split; [reflexivity|]. split; [lia|].
    unfold a_last, b_last. intros -> -> -> -> -> ->. reflexivity.
Qed.

Lemma breach_runs_merging_witness :
  (∃ e, EnforceGCContent.evaluate (H := small_biotools) gc_at_most_four_fifths
          (py "GGGGGAAAAAAAAAAAAAAAGGGGGA") = Ok e
        ∧ violated_windows e = [(0, 5); (20, 25)])
  ∧ (∃ e, EnforceGCContent.evaluate (H := small_biotools)
            gc_at_most_four_fifths (py "GGGGGAGGGGGA") = Ok e
          ∧ violated_windows e = [(0, 11)]).
Proof.
  split.
  - destruct (@breach_runs_merging small_biotools gc_at_most_four_fifths
                (py "GGGGGAAAAAAAAAAAAAAAGGGGGA") 5 0 20 0 0)
      as (e & He & _ & _ & Hfar & _).
    + reflexivity.
    + lia.
    + vm_compute. reflexivity.
    + exists e. split; [exact He|]. apply Hfar; reflexivity.
  - destruct (@breach_runs_merging small_biotools gc_at_most_four_fifths
                (py "GGGGGAGGGGGA") 5 0 6 0 0)
      as (e & He & _ & _ & _ & Hnear).
    + reflexivity.
    + lia.
    + vm_compute. reflexivity.
    + exists e. split; [exact He|]. apply Hnear; reflexivity.
Defined.

(** ** The uniqueness scanner *)

Lemma record_location_lookup (m : gmap str (list interval)) (key : str)
    (position : interval) (k : str) :
  default [] (record_location m key position !! k)
  = default [] (m !! k) ++ (if decide (key = k) then [position] else []).
Proof.
  unfold record_location. case_decide as Hk.
  - subst. rewrite lookup_insert_eq. reflexivity.
  - rewrite lookup_insert_ne by exact Hk. rewrite app_nil_r. reflexivity.
Qed.

Lemma foldl_record_lookup (key : Z → str) (position : Z → interval)
    (l : list Z) (m : gmap str (list interval)) (k : str) :
  default []
    (foldl (λ m i, record_location m (key i) (position i)) m l !! k)
  = default [] (m !! k) ++ map position (filter (λ i, key i = k) l).
Proof.
  revert m. induction l as [|i l IH]; intros m; simpl.
  - rewrite app_nil_r. reflexivity.
  - rewrite IH, record_location_lookup, filter_cons.
    case_decide; simpl; rewrite <- app_assoc; reflexivity.
Qed.

Lemma kmers_locations_lookup (length : Z) (rc : bool) (sequence k : str) :
  default [] (kmers_locations length rc sequence !! k)
  = recorded_occurrences length rc sequence k.
Proof.
  unfold kmers_locations, recorded_occurrences, scan_reverse, scan_forward,
    forward_occurrences, reverse_occurrences.
  destruct rc.
  - rewrite (foldl_record_lookup
               (λ i, py_slice (reverse_complement sequence) i (i + length))
               (λ i, (len sequence - (i + length), len sequence - i))).
    rewrite (foldl_record_lookup
               (λ i, py_slice sequence i (i + length))
               (λ i, (i, i + length))).
    rewrite lookup_empty. reflexivity.
  - rewrite (foldl_record_lookup
               (λ i, py_slice sequence i (i + length))
               (λ i, (i, i + length))).
    rewrite lookup_empty, app_nil_r. reflexivity.
Qed.

Lemma recorded_occurrences_width (length : Z) (rc : bool) (sequence k : str)
    (p : interval) :
  p ∈ recorded_occurrences length rc sequence k → p.2 = p.1 + length.
Proof.
  unfold recorded_occurrences, forward_occurrences, reverse_occurrences.
  rewrite elem_of_app. intros [Hp|Hp].
  - apply list_elem_of_fmap in Hp as (i & -> & _). reflexivity.
  - destruct rc; [|inversion Hp].
    apply list_elem_of_fmap in Hp as (i & -> & _). simpl. lia.
Qed.

Lemma min_by_start_spec (first : interval) (rest : list interval) :
  is_earliest (min_by_start first rest) (first :: rest).
Proof.
  unfold is_earliest, min_by_start. revert first.
  induction rest as [|a rest IH]; intros first; simpl.
  - split; [left|]. intros p Hp. apply list_elem_of_singleton in Hp. subst p. lia.
  - destruct (IH (if decide (a.1 < first.1) then a else first)) as [Hin Hle].
    split.
    + apply elem_of_cons in Hin as [->|Hin].
      * case_decide; [right; left | left].
      * right. right. exact Hin.
    + intros p Hp.
      assert (Hbest : ∀ q, q = a ∨ q = first →
                (foldl (λ best p0 : interval,
                          if decide (p0.1 < best.1) then p0 else best)
                   (if decide (a.1 < first.1) then a else first) rest).1
                ≤ q.1).
      { intros q Hq. etransitivity; [apply Hle; left|].
        case_decide; destruct Hq as [-> | ->]; lia. }
      apply elem_of_cons in Hp as [->|Hp]; [apply Hbest; right; reflexivity|].
      apply elem_of_cons in Hp as [->|Hp]; [apply Hbest; left; reflexivity|].
      apply Hle. right. exact Hp.
Qed.

Lemma first_of_repeated_Some (ps : list interval) (w : interval) :
  first_of_repeated ps = Some w → (1 < length ps)%nat ∧ is_earliest w ps.
Proof.
  destruct ps as [|first [|second rest]]; unfold first_of_repeated;
    try discriminate.
  intros [= <-]. split; [simpl; lia|].
  exact (min_by_start_spec first (second :: rest)).
Qed.

Lemma first_of_repeated_is_Some (ps : list interval) :
  (1 < length ps)%nat → is_Some (first_of_repeated ps).
Proof.
  destruct ps as [|first [|second rest]]; simpl; intros Hlen; try lia.
  eexists. reflexivity.
Qed.

Lemma length_omap_first_of_repeated (l : list (str * list interval)) :
  length (omap first_of_repeated l.*2)
  = length (filter (λ kv : str * list interval, (1 < length kv.2)%nat) l).
Proof.
  induction l as [|[k ps] l IH]; [reflexivity|].
  rewrite fmap_cons, filter_cons.
  change (omap first_of_repeated ((k, ps).2 :: l.*2))
    with (match first_of_repeated ps with
          | Some w => w :: omap first_of_repeated l.*2
          | None => omap first_of_repeated l.*2
          end).
  destruct (first_of_repeated ps) as [w|] eqn:Hfirst.
  - apply first_of_repeated_Some in Hfirst as [Hlen _].
    rewrite decide_True by exact Hlen. simpl. rewrite IH. reflexivity.
  - rewrite decide_False; [exact IH|].
    intros Hlen. apply first_of_repeated_is_Some in Hlen as [w Hw].
    simpl in Hw. congruence.
Qed.

Global Instance window_le_total : Total window_le.
Proof. intros p q. unfold window_le. lia. Qed.

Lemma Sorted_window_le_start (ws : list interval) :
  Sorted window_le ws → Sorted (λ p q : interval, p.1 ≤ q.1) ws.
Proof.
  induction 1 as [|p ws Hsorted IH Hhd]; constructor; [exact IH|].
  destruct Hhd as [|q ws Hpq]; constructor. unfold window_le in Hpq. lia.
Qed.

Lemma repeated_keys_NoDup (m : gmap str (list interval)) :
  NoDup (repeated_keys m).
Proof.
  unfold repeated_keys.
  apply (sublist_NoDup _ _ (NoDup_fst_map_to_list m)).
  apply fmap_sublist, sublist_filter.
Qed.

Lemma elem_of_repeated_keys (m : gmap str (list interval)) (k : str) :
  k ∈ repeated_keys m ↔ (1 < length (default [] (m !! k)))%nat.
Proof.
  unfold repeated_keys. rewrite list_elem_of_fmap. split.
  - intros ([k' ps] & -> & Hin). apply list_elem_of_filter in Hin as [Hlen Hin].
    apply elem_of_map_to_list in Hin. simpl in *. rewrite Hin. exact Hlen.
  - intros Hlen. destruct (m !! k) as [ps|] eqn:Hk; [|simpl in Hlen; lia].
    exists (k, ps). split; [reflexivity|].
    apply list_elem_of_filter. split; [exact Hlen|].
    apply elem_of_map_to_list. exact Hk.
Qed.

Lemma repeated_windows_spec (m : gmap str (list interval)) :
  length (repeated_windows m) = length (repeated_keys m)
  ∧ (∀ w, w ∈ repeated_windows m →
       ∃ k, k ∈ repeated_keys m ∧ is_earliest w (default [] (m !! k)))
  ∧ (∀ k, k ∈ repeated_keys m →
       ∃ w, w ∈ repeated_windows m ∧ is_earliest w (default [] (m !! k)))
  ∧ Sorted window_le (repeated_windows m).
Proof.
  unfold repeated_windows, py_sorted.
  split; [|split; [|split]].
  - rewrite merge_sort_Permutation, length_omap_first_of_repeated.
    unfold repeated_keys. rewrite length_fmap. reflexivity.
  - intros w. rewrite merge_sort_Permutation, list_elem_of_omap.
    intros (ps & Hps & Hfirst).
    apply list_elem_of_fmap in Hps as ([k ps'] & -> & Hin).
    apply elem_of_map_to_list in Hin.
    apply first_of_repeated_Some in Hfirst as [Hlen Hearly]. simpl in *.
    exists k. rewrite elem_of_repeated_keys, Hin. split; assumption.
  - intros k Hk. apply elem_of_repeated_keys in Hk.
    destruct (m !! k) as [ps|] eqn:Hlookup; [|simpl in Hk; lia].
    simpl in *. destruct (first_of_repeated_is_Some ps Hk) as [w Hw].
    exists w. split; [|apply (first_of_repeated_Some ps w Hw)].
    rewrite merge_sort_Permutation, list_elem_of_omap. exists ps.
    split; [|exact Hw]. apply list_elem_of_fmap. exists (k, ps).
    split; [reflexivity|]. apply elem_of_map_to_list. exact Hlookup.
  - apply Sorted_merge_sort. apply _.
Qed.

Lemma scan_result_spec (ws : list interval) :
  violated_windows (scan_result ws) = ws
  ∧ (ws = [] → score (scan_result ws) = 1)
  ∧ (ws ≠ [] → score (scan_result ws) = - len ws).
Proof. destruct ws; simpl; repeat split; congruence. Qed.

(** C6 (amended).  For every window subsequence and segment length, the
    dictionary of the scanner holds under each key the positions recorded
    for it; the keys with more than one recorded position are the repeated
    keys.  The score is 1 when there is no repeated key and otherwise minus
    the number of distinct repeated keys; the violated windows are as many
    as the repeated keys, each is an earliest-starting recorded position of
    a repeated key, every repeated key has one, and they are sorted
    ascending by start.  AvoidNonuniqueSegments evaluates to the same. *)
Theorem uniqueness_scanner_score_and_windows (S : AvoidNonuniqueKmers.t)
    (sequence : str) :
  let w := default (0, len sequence) (AvoidNonuniqueKmers.window S) in
  let subsequence := py_slice sequence w.1 w.2 in
  let m :=
    kmers_locations (AvoidNonuniqueKmers.length S)
      (AvoidNonuniqueKmers.include_reverse_complement S) subsequence in
  let occurrences :=
    recorded_occurrences (AvoidNonuniqueKmers.length S)
      (AvoidNonuniqueKmers.include_reverse_complement S) subsequence in
  let e := AvoidNonuniqueKmers.evaluate S sequence in
  let n := len (repeated_keys m) in
  (∀ k, default [] (m !! k) = occurrences k)
  ∧ NoDup (repeated_keys m)
  ∧ (∀ k, k ∈ repeated_keys m ↔ (1 < length (occurrences k))%nat)
  ∧ (n = 0 → score e = 1)
  ∧ (n ≠ 0 → score e = - n)
  ∧ len (violated_windows e) = n
  ∧ (∀ v, v ∈ violated_windows e →
       ∃ k, k ∈ repeated_keys m ∧ is_earliest v (occurrences k))
  ∧ (∀ k, k ∈ repeated_keys m →
       ∃ v, v ∈ violated_windows e ∧ is_earliest v (occurrences k))
  ∧ Sorted window_le (violated_windows e)
  ∧ Sorted (λ p q : interval, p.1 ≤ q.1) (violated_windows e)
  ∧ AvoidNonuniqueSegments.evaluate
      {| AvoidNonuniqueSegments.length := AvoidNonuniqueKmers.length S;
         AvoidNonuniqueSegments.window := AvoidNonuniqueKmers.window S;
         AvoidNonuniqueSegments.include_reverse_complement :=
           AvoidNonuniqueKmers.include_reverse_complement S |} sequence
    = e.
Proof.
  intros w subsequence m occurrences e n.
  assert (Hm : ∀ k, default [] (m !! k) = occurrences k)
    by (intros k; apply kmers_locations_lookup).
  destruct (repeated_windows_spec m) as (Hlen & Hin & Hout & Hsorted).
  assert (He : e = scan_result (repeated_windows m)) by reflexivity.
  destruct (scan_result_spec (repeated_windows m)) as (Hv & Hs0 & Hs).
  rewrite He, Hv. unfold n, len. rewrite <- Hlen.
  split; [exact Hm|]. split; [apply repeated_keys_NoDup|].
  split; [intros k; rewrite <- Hm; apply elem_of_repeated_keys|].
  split; [intros Hn; apply Hs0; destruct (repeated_windows m);
          [reflexivity | simpl in Hn; lia]|].
  split; [intros Hn; apply Hs; intros Hnil; rewrite Hnil in Hn;
          simpl in Hn; lia|].
  split; [reflexivity|].
  split; [intros v Hv'; destruct (Hin v Hv') as (k & Hk & Hearly);
          exists k; rewrite <- Hm; split; assumption|].
  split; [intros k Hk; destruct (Hout k Hk) as (v & Hv' & Hearly);
          exists v; rewrite <- Hm; split; assumption|].
  split; [exact Hsorted|].
  split; [apply Sorted_window_le_start, Hsorted | reflexivity].
Qed.

(** Without any repeated key the score is 1, not 0. *)
Lemma scanner_without_repeat_scores_one :
  let S := {| AvoidNonuniqueKmers.length := 2;
              AvoidNonuniqueKmers.window := None;
              AvoidNonuniqueKmers.include_reverse_complement := false |} in
  let sequence := py "ACGTT" in
  repeated_keys (kmers_locations 2 false sequence) = []
  ∧ score (AvoidNonuniqueKmers.evaluate S sequence) = 1
  ∧ score (AvoidNonuniqueKmers.evaluate S sequence)
    ≠ - len (repeated_keys (kmers_locations 2 false sequence)).
Proof. vm_compute. repeat split. discriminate. Qed.

Lemma uniqueness_scanner_score_and_windows_witness :
  let S := {| AvoidNonuniqueKmers.length := 2;
              AvoidNonuniqueKmers.window := None;
              AvoidNonuniqueKmers.include_reverse_complement := false |} in
  let sequence := py "ACACGT" in
  score (AvoidNonuniqueKmers.evaluate S sequence) = -1
  ∧ ∃ k, k ∈ repeated_keys (kmers_locations 2 false sequence)
         ∧ is_earliest (0, 2) (recorded_occurrences 2 false sequence k).
Proof.
  intros S sequence.
  destruct (uniqueness_scanner_score_and_windows S sequence)
    as (_ & _ & _ & _ & Hscore & _ & Hin & _).
  split.
  - apply Hscore. vm_compute. discriminate.
  - apply Hin. vm_compute. left.
Defined.

(** C5 (the code on the input of the claim).  On "AAAAACCCCCAAAAA" with
    length 5, without reverse complement and without window, the loop
    visits the starts 0 to 9 and never records the segment at (10, 15):
    "AAAAA" is recorded once, no key is repeated, and both
    AvoidNonuniqueKmers and AvoidNonuniqueSegments return score 1 with no
    violated window. *)
Theorem scanner_misses_last_segment :
  let sequence := py "AAAAACCCCCAAAAA" in
  py_range (len sequence - 5) = [0; 1; 2; 3; 4; 5; 6; 7; 8; 9]
  ∧ py_slice sequence 10 15 = py "AAAAA"
  ∧ recorded_occurrences 5 false sequence (py "AAAAA") = [(0, 5)]
  ∧ repeated_keys (kmers_locations 5 false sequence) = []
  ∧ AvoidNonuniqueKmers.evaluate
      {| AvoidNonuniqueKmers.length := 5;
         AvoidNonuniqueKmers.window := None;
         AvoidNonuniqueKmers.include_reverse_complement := false |} sequence
    = {| score := 1; windows := None |}
  ∧ AvoidNonuniqueSegments.evaluate
      {| AvoidNonuniqueSegments.length := 5;
         AvoidNonuniqueSegments.window := None;
         AvoidNonuniqueSegments.include_reverse_complement := false |}
      sequence
    = {| score := 1; windows := None |}.
Proof. vm_compute. repeat split. Qed.

(** ** The window of a localized EnforceTranslation *)

(** C10.  For every EnforceTranslation whose window length is 3 times the
    length of its translation and every window [W] that overlaps its
    window, [localized(W)] raises nothing and returns an EnforceTranslation
    whose window length is again 3 times the length of its sliced
    translation. *)
Theorem translation_localized_keeps_window_size (S : EnforceTranslation.t)
    (own W : interval) (tr : str) :
  EnforceTranslation.window S = Some own →
  EnforceTranslation.translation S = Some tr →
  own.2 - own.1 = 3 * len tr →
  windows_share_position W own →
  ∃ S' new_window new_translation,
    EnforceTranslation.localized S W = Ok (Localized S')
    ∧ EnforceTranslation.window S' = Some new_window
    ∧ EnforceTranslation.translation S' = Some new_translation
    ∧ new_window.2 - new_window.1 = 3 * len new_translation.
Proof.
  destruct S as [boost w t strand flag]. simpl. intros -> -> Hsize Hshare.
  unfold EnforceTranslation.localized. simpl.
  destruct (windows_overlap W own) as [[o_start o_end]|] eqn:Hoverlap;
    [|apply windows_overlap_None in Hoverlap; contradiction].
  unfold windows_overlap in Hoverlap. case_decide as Hlt; [|discriminate].
  injection Hoverlap as Hstart Hend.
  destruct own as [w_start w_end]. simpl in *.
  set (start_codon := (o_start - w_start) `div` 3).
  set (end_codon := (o_end - w_start) `div` 3).
  pose proof (len_nonneg tr) as Hn.
  assert (Hcodons : 0 ≤ start_codon ∧ start_codon ≤ end_codon
                    ∧ start_codon < len tr ∧ end_codon ≤ len tr).
  { unfold start_codon, end_codon.
    pose proof (Z.div_mod (o_start - w_start) 3).
    pose proof (Z.mod_pos_bound (o_start - w_start) 3).
    pose proof (Z.div_mod (o_end - w_start) 3).
    pose proof (Z.mod_pos_bound (o_end - w_start) 3).
    lia. }
  assert (Hlen : len (py_slice tr start_codon (end_codon + 1))
                 = Z.min (end_codon + 1) (len tr) - start_codon).
  { rewrite length_py_slice by lia. lia. }
  unfold EnforceTranslation.init. simpl.
  case_decide as Hbad; [exfalso; apply Hbad; rewrite Hlen; lia|].
  eexists _, _, _. split; [reflexivity|]. simpl.
  split; [reflexivity|]. split; [reflexivity|]. simpl. rewrite Hlen. lia.
Qed.

Lemma translation_localized_keeps_window_size_witness :
  ∃ S' new_window new_translation,
    EnforceTranslation.localized translation_example (4, 6)
    = Ok (Localized S')
    ∧ EnforceTranslation.window S' = Some new_window
    ∧ EnforceTranslation.translation S' = Some new_translation
    ∧ new_window.2 - new_window.1 = 3 * len new_translation.
Proof.
  apply (translation_localized_keeps_window_size translation_example (2, 8)
           (4, 6) (py "MK")).
  - reflexivity.
  - reflexivity.
  - reflexivity.
  - exists 4. simpl. lia.
Defined.

(** ** Constructors *)

Lemma mapM_from_option {A B} (e : exn) (f : A → option B) (l : list A) :
  (∃ ys, mapM (λ x, from_option e (f x)) l = Ok ys)
  ∨ mapM (λ x, from_option e (f x)) l = Raise e.
Proof.
  induction l as [|x l IH]; simpl.
  - left. eexists. reflexivity.
  - destruct (f x); simpl; [|right; reflexivity].
    destruct IH as [[ys ->]| ->]; simpl;
      [left; eexists; reflexivity | right; reflexivity].
Qed.

Lemma mapM_cases {A B} (e : exn) (f : A → result B) (l : list A) :
  (∀ x, (∃ y, f x = Ok y) ∨ f x = Raise e) →
  (∃ ys, mapM f l = Ok ys) ∨ mapM f l = Raise e.
Proof.
  intros Hf. induction l as [|x l IH]; simpl.
  - left. eexists. reflexivity.
  - destruct (Hf x) as [[y ->]| ->]; simpl; [|right; reflexivity].
    destruct IH as [[ys ->]| ->]; simpl;
      [left; eexists; reflexivity | right; reflexivity].
Qed.

Lemma codon_usages_cases `{Biotools} (S : Specifications.CodonOptimize.t)
    (codon : str) :
  (∃ p, Specifications.CodonOptimize.usages S codon = Ok p)
  ∨ Specifications.CodonOptimize.usages S codon = Raise KeyError.
Proof.
  unfold Specifications.CodonOptimize.usages.
  destruct (Specifications.CodonOptimize.codon_usage_table S !! codon);
    simpl; [|right; reflexivity].
  destruct (CODONS_TRANSLATIONS !! codon) as [translated|]; simpl;
    [|right; reflexivity].
  destruct (Specifications.CodonOptimize.codon_usage_table S !! translated);
    simpl; [left; eexists; reflexivity | right; reflexivity].
Qed.

(** What the evaluation of CodonOptimize of the specifications package
    raises: a range error from the extraction, the value error about the
    length, a key error from the tables, the value error of the unpacking
    when there is no codon, an attribute error without a location, or the
    type error of the arithmetic on the tuple of indices. *)
Lemma codon_specification_raises `{Biotools}
    (S : Specifications.CodonOptimize.t) (sequence : str) :
  let r := Specifications.CodonOptimize.evaluate S sequence in
  r = Raise (ValueError "CodonOptimizationSpecification on a window/sequencewith size %d not multiple of 3)")
  ∨ r = Raise (ValueError "not enough values to unpack")
  ∨ r = Raise RangeError
  ∨ r = Raise KeyError
  ∨ r = Raise AttributeError
  ∨ r = Raise TypeError.
Proof.
  cbv zeta. unfold Specifications.CodonOptimize.evaluate.
  destruct (Specifications.extract_sequence _ sequence) as [sub|ex] eqn:Hsub.
  - simpl. case_decide; [left; reflexivity|].
    match goal with
    | |- context [mapM ?f ?l] =>
        destruct (mapM_cases KeyError f l (codon_usages_cases S))
          as [[pairs ->]| ->]; simpl
    end; [|do 3 right; left; reflexivity].
    destruct pairs as [|p pairs]; simpl; [right; left; reflexivity|].
    destruct (Specifications.CodonOptimize.location S) as [own|]; simpl;
      [|do 4 right; left; reflexivity].
    case_decide; simpl; do 5 right; reflexivity.
  - unfold Specifications.extract_sequence in Hsub.
    case_decide; [case_decide; discriminate|].
    injection Hsub as <-. simpl. do 2 right. left. reflexivity.
Qed.

(** C9 (amended).  CodonOptimize, of [objectives.py] and of the
    specifications package alike, constructed with the species and the
    codon usage table both omitted raises the configuration error at
    construction, and no evaluation raises that error.  The evaluation of
    the class of [objectives.py] raises no value error other than the one
    about a length that is not a multiple of 3.  The evaluation of the class
    of the specifications package raises a value error for a length that
    is not a multiple of 3 and also for a location without any codon, where
    there is nothing to unpack, as on the location from 0 to 0.  The
    constructor of EnforceMeltingTemperature compares no parameters:
    whenever a target is given the construction succeeds, whatever mini
    and maxi are. *)
Theorem constructors_validation `{Biotools} :
  (∀ (window : option interval) (strand : Z) (boost : Q),
     CodonOptimize.init None window strand None boost
     = Raise (ValueError no_table_message))
  ∧ (∀ (location : option Specifications.Location) (boost : Q),
       Specifications.CodonOptimize.init None location None boost
       = Raise (ValueError
                  "Provide either an species name or a codon usage table"))
  ∧ (∀ (S : CodonOptimize.t) (sequence : str),
       (∃ e, CodonOptimize.evaluate S sequence = Ok e)
       ∨ CodonOptimize.evaluate S sequence
         = Raise (ValueError not_multiple_of_3_message)
       ∨ CodonOptimize.evaluate S sequence = Raise KeyError)
  ∧ (∀ (S : Specifications.CodonOptimize.t) (sequence : str),
       let r := Specifications.CodonOptimize.evaluate S sequence in
       r = Raise (ValueError "CodonOptimizationSpecification on a window/sequencewith size %d not multiple of 3)")
       ∨ r = Raise (ValueError "not enough values to unpack")
       ∨ r = Raise RangeError
       ∨ r = Raise KeyError
       ∨ r = Raise AttributeError
       ∨ r = Raise TypeError)
  ∧ Specifications.CodonOptimize.evaluate no_codons (py "AAAAAA")
    = Raise (ValueError "not enough values to unpack")
  ∧ (∀ (S : CodonOptimize.t) (sequence : str),
       CodonOptimize.evaluate S sequence
       ≠ Raise (ValueError no_table_message))
  ∧ (∀ (S : Specifications.CodonOptimize.t) (sequence : str),
       Specifications.CodonOptimize.evaluate S sequence
       ≠ Raise (ValueError
                  "Provide either an species name or a codon usage table"))
  ∧ (∀ (mini maxi : option float) (target : float)
       (location : option Specifications.Location) (boost : Q),
       ∃ S, Specifications.EnforceMeltingTemperature.init mini maxi
              (Some target) location boost = Ok S).
Proof.
  assert (Hlegacy : ∀ (S : CodonOptimize.t) (sequence : str),
            (∃ e, CodonOptimize.evaluate S sequence = Ok e)
            ∨ CodonOptimize.evaluate S sequence
              = Raise (ValueError not_multiple_of_3_message)
            ∨ CodonOptimize.evaluate S sequence = Raise KeyError).
  { intros S sequence. unfold CodonOptimize.evaluate.
    case_decide; [right; left; reflexivity|].
    match goal with
    | |- context [mapM (λ i, from_option KeyError (@?f i)) ?l] =>
        destruct (mapM_from_option KeyError f l) as [[us ->]| ->]; simpl
    end.
    - left. eexists. reflexivity.
    - right. right. reflexivity. }
  repeat apply conj.
  - reflexivity.
  - reflexivity.
  - exact Hlegacy.
  - intros S sequence. apply codon_specification_raises.
  - vm_compute. reflexivity.
  - intros S sequence Heq.
    destruct (Hlegacy S sequence) as [[e He]|[He|He]];
      rewrite He in Heq; discriminate Heq.
  - intros S sequence Heq.
    destruct (codon_specification_raises S sequence)
      as [He|[He|[He|[He|[He|He]]]]];
      rewrite He in Heq; discriminate Heq.
  - intros mini maxi target location boost. eexists. reflexivity.
Qed.

(** A target of 10 with bounds 50 and 70, of midpoint 60: the construction
    succeeds. *)
Lemma melting_temperature_accepts_mismatch :
  Specifications.EnforceMeltingTemperature.init (Some 50%float)
    (Some 70%float) (Some 10%float) None 1
  = Ok {| Specifications.EnforceMeltingTemperature.mini := 10;
          Specifications.EnforceMeltingTemperature.maxi := 10;
          Specifications.EnforceMeltingTemperature.target := 10;
          Specifications.EnforceMeltingTemperature.location := None;
          Specifications.EnforceMeltingTemperature.boost := 1 |}
  ∧ (0.5 * (50 + 70))%float = 60%float
  ∧ (60 =? 10)%float = false.
Proof. split; [reflexivity|]. split; reflexivity. Qed.

(** ** The codon objective *)

Section Codons.
Context `{Biotools}.

(** A window whose length is not a multiple of 3 raises the value error,
    in both packages. *)
Lemma codon_evaluate_not_multiple_of_3 (S : CodonOptimize.t) (sequence : str) :
  let w := default (0, len sequence) (CodonOptimize.window S) in
  len (py_slice sequence w.1 w.2) `mod` 3 ≠ 0 →
  CodonOptimize.evaluate S sequence
  = Raise (ValueError not_multiple_of_3_message).
Proof.
  intros w Hmod. subst w. unfold CodonOptimize.evaluate. cbv zeta.
  destruct (decide (CodonOptimize.strand S = -1)) as [Hrev|Hfwd].
  - rewrite decide_True; [reflexivity|].
    unfold reverse_complement, len. rewrite length_map, length_rev.
    exact Hmod.
  - rewrite decide_True by exact Hmod. reflexivity.
Qed.

Lemma codon_specification_not_multiple_of_3
    (S : Specifications.CodonOptimize.t) (sequence subsequence : str) :
  Specifications.extract_sequence
    (default {| Specifications.start := 0;
                Specifications.end_ := len sequence;
                Specifications.strand := None |}
       (Specifications.CodonOptimize.location S)) sequence
  = Ok subsequence →
  len subsequence `mod` 3 ≠ 0 →
  ∃ msg, Specifications.CodonOptimize.evaluate S sequence
         = Raise (ValueError msg).
Proof.
  intros Hsub Hmod. unfold Specifications.CodonOptimize.evaluate.
  rewrite Hsub. simpl. rewrite decide_True by exact Hmod.
  eexists. reflexivity.
Qed.

(** The indices are a tuple, and neither [+= start] nor [end - ...] is
    defined on a tuple: the evaluation of the specifications package never
    returns an evaluation. *)
Lemma codon_specification_never_returns (S : Specifications.CodonOptimize.t)
    (sequence : str) (e : Specifications.SpecEvaluation Q) :
  Specifications.CodonOptimize.evaluate S sequence ≠ Ok e.
Proof.
  unfold Specifications.CodonOptimize.evaluate.
  destruct (Specifications.extract_sequence _ sequence) as [sub|];
    simpl; [|discriminate].
  case_decide; [discriminate|].
  destruct (mapM _ _) as [pairs|]; simpl; [|discriminate].
  destruct (Specifications.CodonOptimize.unzip_usages pairs)
    as [[current optimal]|]; simpl; [|discriminate].
  destruct (Specifications.CodonOptimize.location S) as [own|]; simpl;
    [|discriminate].
  case_decide; simpl; discriminate.
Qed.

End Codons.

(** C8 (the code on a window of optimal codons).  With the usage table
    AAA 3/4, AAG 1/4 and the best usage 3/4 for the amino acid K, the
    sequence "AAAAAA" is made of two optimal codons.  The evaluation of the
    specifications package raises a type error on it, where the claim has
    score 0 and no violated window; the evaluation of [objectives.py]
    returns the sum 3/2 of the usages and reports the whole window. *)
Theorem codon_optimize_on_optimal_codons :
  let sequence := py "AAAAAA" in
  Specifications.CodonOptimize.init (H := small_biotools) None
    (Specifications.CodonOptimize.location two_lysines) (Some lysine_usage) 1
  = Ok two_lysines
  ∧ Specifications.CodonOptimize.usages (H := small_biotools) two_lysines
      (py "AAA") = Ok ((3 # 4)%Q, (3 # 4)%Q)
  ∧ Specifications.CodonOptimize.evaluate (H := small_biotools) two_lysines
      sequence = Raise TypeError
  ∧ ∃ e, CodonOptimize.evaluate two_lysines_objective sequence = Ok e
         ∧ (score e == 3 # 2)%Q ∧ windows e = Some [(0, 6)].
Proof.
  simpl. split; [reflexivity|]. split; [vm_compute; reflexivity|].
  split; [vm_compute; reflexivity|].
  eexists. split; [vm_compute; reflexivity|]. simpl.
  split; [reflexivity | reflexivity].
Qed.

(** ** Violated windows and satisfaction *)

Lemma scan_result_pass_iff (ws : list interval) :
  violated_windows (scan_result ws) = [] ↔ 0 ≤ score (scan_result ws).
Proof.
  destruct ws as [|w ws]; simpl; [split; [lia | reflexivity]|].
  unfold violated_windows, len. simpl. split; [discriminate | lia].
Qed.

(** C7 (amended).  The list of violated windows is empty if and only if the
    score is not negative for EnforceGCContent, AvoidNonuniqueKmers,
    AvoidNonuniqueSegments, AvoidBlastMatches and AvoidPattern.  It is not
    so for every specification: the evaluations of EnforcePattern, of
    CodonOptimize in [objectives.py] and of EnforceMeltingTemperature
    always report exactly the window of the specification, whether they
    pass or not. *)
Theorem violated_windows_and_satisfaction `{Biotools} :
  (∀ (S : EnforceGCContent.t) (sequence : str),
     ∃ e, EnforceGCContent.evaluate S sequence = Ok e
          ∧ (violated_windows e = [] ↔ (0 <= score e)%Q))
  ∧ (∀ (S : AvoidNonuniqueKmers.t) (sequence : str),
       let e := AvoidNonuniqueKmers.evaluate S sequence in
       violated_windows e = [] ↔ 0 ≤ score e)
  ∧ (∀ (S : AvoidNonuniqueSegments.t) (sequence : str),
       let e := AvoidNonuniqueSegments.evaluate S sequence in
       violated_windows e = [] ↔ 0 ≤ score e)
  ∧ (∀ (S : AvoidBlastMatches.t) (sequence : str),
       let e := AvoidBlastMatches.evaluate S sequence in
       violated_windows e = [] ↔ 0 ≤ score e)
  ∧ (∀ (S : AvoidPattern.t) (sequence : str),
       let e := AvoidPattern.evaluate S sequence in
       violated_windows e = [] ↔ 0 ≤ score e)
  ∧ (∀ (S : EnforcePattern.t) (sequence : str),
       violated_windows (EnforcePattern.evaluate S sequence)
       = [default (0, len sequence) (EnforcePattern.window S)])
  ∧ (∀ (S : CodonOptimize.t) (sequence : str) (e : ObjectiveEvaluation Q),
       CodonOptimize.evaluate S sequence = Ok e →
       violated_windows e
       = [default (0, len sequence) (CodonOptimize.window S)])
  ∧ (∀ (S : Specifications.EnforceMeltingTemperature.t) (sequence : str)
       (e : Specifications.SpecEvaluation float),
       Specifications.EnforceMeltingTemperature.evaluate S sequence = Ok e →
       ∃ own, Specifications.EnforceMeltingTemperature.location S = Some own
              ∧ Specifications.locations e = [own]).
Proof.
  repeat apply conj.
  - intros S sequence.
    destruct (gc_evaluate_pass_iff S sequence) as (e & He & _ & Hiff & Hle).
    exists e. split; [exact He|]. rewrite <- Hiff. split; intros; lra.
  - intros S sequence. apply scan_result_pass_iff.
  - intros S sequence. apply scan_result_pass_iff.
  - intros S sequence. apply scan_result_pass_iff.
  - intros S sequence. unfold AvoidPattern.evaluate, violated_windows. simpl.
    destruct (find_matches _ _ _) as [|w ws]; unfold len; simpl;
      [split; [lia | reflexivity] | split; [discriminate | lia]].
  - reflexivity.
  - intros S sequence e. unfold CodonOptimize.evaluate.
    case_decide; [discriminate|].
    destruct (mapM _ _) as [us|]; simpl; [|discriminate].
    intros [= <-]. reflexivity.
  - intros S sequence e.
    unfold Specifications.EnforceMeltingTemperature.evaluate.
    destruct (Specifications.EnforceMeltingTemperature.location S)
      as [own|]; simpl; [|discriminate].
    destruct (Specifications.extract_sequence own sequence) as [sub|];
      simpl; [|discriminate].
    intros [= <-]. exists own. split; reflexivity.
Qed.

(** The pattern occurs once, as wanted: the evaluation passes with score 0
    and reports the whole window. *)
Lemma passing_pattern_reports_window :
  let e := EnforcePattern.evaluate (H := small_biotools) one_start_codon
             (py "CCATGC") in
  exact_matches (py "ATG") (py "CCATGC") (Some (0, 6)) = [(2, 5)]
  ∧ score e = 0
  ∧ violated_windows e = [(0, 6)]
  ∧ ¬ (violated_windows e = [] ↔ 0 ≤ score e).
Proof.
  vm_compute. split; [reflexivity|]. split; [reflexivity|].
  split; [reflexivity|]. intros [_ Hpass].
  discriminate Hpass. intros Hle. discriminate Hle.
Qed.

Lemma violated_windows_and_satisfaction_witness :
  (∃ e, CodonOptimize.evaluate two_lysines_objective (py "AAAAAA") = Ok e
        ∧ violated_windows e = [(0, 6)])
  ∧ (∃ e own, Specifications.EnforceMeltingTemperature.evaluate
                (H := small_biotools) primer_tm primer_sequence = Ok e
              ∧ Specifications.EnforceMeltingTemperature.location primer_tm
                = Some own
              ∧ Specifications.locations e = [own]).
Proof.
  destruct (@violated_windows_and_satisfaction small_biotools)
    as (_ & _ & _ & _ & _ & _ & Hcodon & Htm).
  split.
  - eexists. split; [vm_compute; reflexivity|].
    apply (Hcodon two_lysines_objective (py "AAAAAA")).
    vm_compute. reflexivity.
  - edestruct (Htm primer_tm primer_sequence) as (own & Hown & Hloc).
    + vm_compute. reflexivity.
    + eexists _, own. split; [vm_compute; reflexivity|].
      split; [exact Hown | exact Hloc].
Defined.

(** * Further properties *)

(** ** The windows of EnforceGCContent *)

Lemma foldl_merge_step_runs (gcw wstart : Z) (rest : list Z)
    (acc : list interval) (current_start last_end : Z) :
  (let '(acc', current_start', last_end') :=
     foldl (EnforceGCContent.merge_step gcw wstart)
       (acc, current_start, last_end) rest in
   acc' ++ [(wstart + current_start', wstart + last_end')])
  = acc ++ merged_runs gcw wstart current_start last_end rest.
Proof.
  revert acc current_start last_end.
  induction rest as [|i rest IH]; intros acc cs le; simpl; [reflexivity|].
  case_decide.
  - rewrite IH, <- app_assoc. reflexivity.
  - apply IH.
Qed.

Lemma merged_runs_spec (gcw wstart : Z) (rest : list Z)
    (current_start last_end : Z) :
  0 ≤ gcw →
  current_start + gcw ≤ last_end →
  Sorted Z.lt rest →
  Forall (λ i, last_end - gcw < i) rest →
  let runs := merged_runs gcw wstart current_start last_end rest in
  (∃ stop tail, runs = (wstart + current_start, stop) :: tail
                ∧ wstart + last_end ≤ stop)
  ∧ Forall (λ w : interval, w.1 + gcw ≤ w.2) runs
  ∧ (∀ i, i ∈ rest →
       ∃ w : interval, w ∈ runs ∧ w.1 ≤ wstart + i ∧ wstart + i + gcw ≤ w.2)
  ∧ Sorted (λ w w' : interval, w.2 + gcw < w'.1) runs.
Proof.
  intros Hgcw. revert current_start last_end.
  induction rest as [|i rest IH]; intros cs le Hrun Hsorted Hafter; simpl.
  - split; [eexists _, _; split; [reflexivity | lia]|].
    split; [repeat constructor; simpl; lia|].
    split; [intros i Hi; inversion Hi | repeat constructor].
  - apply Forall_cons in Hafter as [Hi Hafter].
    assert (Hrest : Forall (λ j, i + gcw - gcw < j) rest).
    { apply Sorted_StronglySorted in Hsorted; [|intros x y z; lia].
      apply StronglySorted_inv in Hsorted as [_ Hlt].
      eapply Forall_impl; [exact Hlt|]. simpl. intros j Hj. lia. }
    apply Sorted_inv in Hsorted as [Hsorted _].
    case_decide as Hfar.
    + destruct (IH i (i + gcw) ltac:(lia) Hsorted Hrest)
        as ((stop & tail & Heq & Hstop) & Hwidth & Hcover & Hsep).
      split; [eexists _, _; split; [reflexivity | lia]|].
      split; [constructor; [simpl; lia | exact Hwidth]|].
      split.
      * intros j Hj. apply elem_of_cons in Hj as [->|Hj].
        -- exists (wstart + i, stop). rewrite Heq.
           split; [right; left|]. simpl. lia.
        -- destruct (Hcover j Hj) as (w & Hw & Hlo & Hhi).
           exists w. split; [right; exact Hw | split; assumption].
      * constructor; [exact Hsep|]. rewrite Heq. constructor. simpl. lia.
    + destruct (IH cs (i + gcw) ltac:(lia) Hsorted Hrest)
        as ((stop & tail & Heq & Hstop) & Hwidth & Hcover & Hsep).
      split; [eexists _, _; split; [exact Heq | lia]|].
      split; [exact Hwidth|]. split; [|exact Hsep].
      intros j Hj. apply elem_of_cons in Hj as [->|Hj]; [|apply Hcover, Hj].
      exists (wstart + cs, stop). rewrite Heq.
      split; [left|]. simpl. lia.
Qed.

Lemma positive_indices_from_sorted (i : Z) (a : list Q) :
  Sorted Z.lt (positive_indices_from i a)
  ∧ Forall (λ j, i ≤ j) (positive_indices_from i a).
Proof.
  revert i. induction a as [|x a IH]; intros i; simpl.
  - split; constructor.
  - destruct (IH (i + 1)) as [Hsorted Hfrom].
    assert (Hge : Forall (λ j, i ≤ j) (positive_indices_from (i + 1) a))
      by (eapply Forall_impl; [exact Hfrom|]; simpl; intros; lia).
    destruct (Qlt_le_dec 0 x); [|split; assumption].
    split; [|constructor; [lia | exact Hge]].
    constructor; [exact Hsorted|].
    destruct (positive_indices_from (i + 1) a) as [|j l]; constructor.
    apply Forall_cons in Hfrom as [Hj _]. lia.
Qed.

(** X1.  EnforceGCContent with a sliding window of width [gcw] and at least
    two breaching positions: the evaluation returns, every reported window
    is at least [gcw] wide, every breaching position [b] has a reported
    window that contains [wstart + b, wstart + b + gcw], and the reported
    windows are in ascending order with more than [gcw] between the end of
    one and the start of the next. *)
Theorem gc_windows_cover_breaches `{Biotools} (S : EnforceGCContent.t)
    (sequence : str) (gcw : Z) :
  EnforceGCContent.gc_window S = Some gcw →
  0 ≤ gcw →
  (2 ≤ length (positive_indices (EnforceGCContent.breaches S sequence)))%nat →
  let wstart := (EnforceGCContent.effective_window S sequence).1 in
  ∃ e, EnforceGCContent.evaluate S sequence = Ok e
       ∧ Forall (λ w : interval, w.1 + gcw ≤ w.2) (violated_windows e)
       ∧ (∀ b, b ∈ positive_indices (EnforceGCContent.breaches S sequence) →
            ∃ w : interval, w ∈ violated_windows e
                 ∧ w.1 ≤ wstart + b ∧ wstart + b + gcw ≤ w.2)
       ∧ Sorted (λ w w' : interval, w.2 + gcw < w'.1) (violated_windows e).
Proof.
  intros Hgcw Hpos Hlen wstart. unfold EnforceGCContent.evaluate.
  rewrite Hgcw. fold wstart.
  destruct (positive_indices_from_sorted 0
              (EnforceGCContent.breaches S sequence)) as [Hsorted _].
  fold (positive_indices (EnforceGCContent.breaches S sequence)) in Hsorted.
  destruct (positive_indices (EnforceGCContent.breaches S sequence))
    as [|first [|second rest]]; simpl in Hlen; [lia | lia |].
  rewrite breaches_windows_many by discriminate.
  pose proof (foldl_merge_step_runs gcw wstart (second :: rest) [] first
                (first + gcw)) as Hruns.
  destruct (foldl _ _ (second :: rest)) as [[acc cs] le].
  simpl in Hruns. rewrite Hruns. simpl.
  eexists. split; [reflexivity|]. unfold violated_windows. simpl.
  assert (Hafter : Forall (λ i, first + gcw - gcw < i) (second :: rest)).
  { apply Sorted_StronglySorted in Hsorted; [|intros x y z; lia].
    apply StronglySorted_inv in Hsorted as [_ Hlt].
    eapply Forall_impl; [exact Hlt|]. simpl. intros j Hj. lia. }
  apply Sorted_inv in Hsorted as [Hsorted _].
  destruct (merged_runs_spec gcw wstart (second :: rest) first (first + gcw)
              Hpos ltac:(lia) Hsorted Hafter)
    as ((stop & tail & Heq & Hstop) & Hwidth & Hcover & Hsep).
  split; [exact Hwidth|]. split; [|exact Hsep].
  intros b Hb. apply elem_of_cons in Hb as [->|Hb]; [|apply Hcover, Hb].
  exists (wstart + first, stop). simpl in Heq. rewrite Heq.
  split; [left|]. simpl. lia.
Qed.

Lemma gc_windows_cover_breaches_witness :
  ∃ e, EnforceGCContent.evaluate (H := small_biotools) gc_at_most_four_fifths
         (py "GGGGGGAGGGGGAAAAAAAAAAAAGGGGGA") = Ok e
       ∧ violated_windows e = [(0, 12); (24, 29)]
       ∧ Forall (λ w : interval, w.1 + 5 ≤ w.2) (violated_windows e)
       ∧ Sorted (λ w w' : interval, w.2 + 5 < w'.1) (violated_windows e).
Proof.
  destruct (@gc_windows_cover_breaches small_biotools gc_at_most_four_fifths
              (py "GGGGGGAGGGGGAAAAAAAAAAAAGGGGGA") 5)
    as (e & He & Hwidth & _ & Hsep).
  - reflexivity.
  - lia.
  - vm_compute. lia.
  - exists e. split; [exact He|]. split; [|split; assumption].
    vm_compute in He. injection He as <-. reflexivity.
Defined.

(** X2.  EnforceGCContent without sliding window: the evaluation returns,
    and it reports either nothing, with score 0, when the global proportion
    is within the bounds, or exactly the whole evaluated window, with a
    negative score, when it is not. *)
Theorem gc_global_reports_whole_window `{Biotools} (S : EnforceGCContent.t)
    (sequence : str) :
  EnforceGCContent.gc_window S = None →
  let g := gc_content_global (EnforceGCContent.subsequence S sequence) in
  ∃ e, EnforceGCContent.evaluate S sequence = Ok e
       ∧ ((within_bounds S g ∧ (score e == 0)%Q ∧ violated_windows e = [])
          ∨ (¬ within_bounds S g ∧ (score e < 0)%Q
             ∧ violated_windows e
               = [EnforceGCContent.effective_window S sequence])).
Proof.
  intros Hglobal g.
  unfold EnforceGCContent.evaluate, EnforceGCContent.breaches.
  rewrite Hglobal. simpl. fold g. unfold positive_indices. simpl.
  destruct (Qlt_le_dec 0 (EnforceGCContent.breach S g)) as [Hpos|Hzero]; simpl.
  - eexists. split; [reflexivity|]. right. simpl.
    split; [apply breach_positive_iff, Hpos|]. split; [lra|].
    unfold violated_windows. simpl.
    destruct (EnforceGCContent.effective_window S sequence). reflexivity.
  - eexists. split; [reflexivity|]. left. simpl.
    pose proof (breach_nonneg S g) as Hnn.
    split; [|split; [lra | reflexivity]].
    destruct (Qlt_le_dec g (EnforceGCContent.gc_min S)) as [Hlow|Hlow];
      destruct (Qlt_le_dec (EnforceGCContent.gc_max S) g) as [Hhigh|Hhigh];
      try (split; assumption);
      exfalso; apply (Qle_not_lt _ _ Hzero), breach_positive_iff;
      unfold within_bounds; intros [? ?]; lra.
Qed.

Lemma gc_global_reports_whole_window_witness :
  ∃ e, EnforceGCContent.evaluate (H := small_biotools)
         (EnforceGCContent.init (2 # 5) (3 # 5) None None (Some (2, 8)) 1)
         (py "AAGGGGGGAA") = Ok e
       ∧ violated_windows e = [(2, 8)].
Proof.
  destruct (@gc_global_reports_whole_window small_biotools
              (EnforceGCContent.init (2 # 5) (3 # 5) None None (Some (2, 8)) 1)
              (py "AAGGGGGGAA") eq_refl)
    as (e & He & [(Hin & _) | (_ & _ & Hw)]).
  - exfalso. destruct Hin as [_ Hmax]. vm_compute in Hmax.
    apply Hmax. reflexivity.
  - exists e. split; [exact He | exact Hw].
Defined.

(** X3.  An EnforceGCContent built with a [gc_objective] has both bounds
    equal to it, whatever [gc_min] and [gc_max] were given: its evaluation
    passes, with score 0 and no violated window, if and only if every
    measured proportion equals the objective. *)
Theorem gc_objective_overrides_bounds `{Biotools} (gc_min gc_max g : Q)
    (gc_window : option Z) (window : option interval) (boost : Q)
    (sequence : str) :
  let S :=
    EnforceGCContent.init gc_min gc_max (Some g) gc_window window boost in
  ∃ e, EnforceGCContent.evaluate S sequence = Ok e
       ∧ (((score e == 0)%Q ∧ violated_windows e = [])
          ↔ Forall (λ x, x == g)%Q
              (gc_content (EnforceGCContent.subsequence S sequence)
                 gc_window)).
Proof.
  intros S. destruct (gc_evaluate_pass_iff S sequence) as (e & He & Hiff & _).
  exists e. split; [exact He|]. rewrite Hiff.
  apply Forall_iff. intros x. unfold within_bounds. simpl.
  split; [intros [? ?]; lra | intros Hx; split; lra].
Qed.

(** X4.  Localization of an objective without window of its own.
    EnforceGCContent with a sliding window of width [g] and
    AvoidBlastMatches with minimal alignment length [g] return an objective
    whose window is [W] widened by [g] on both sides and cut at 0, so that
    it covers [W]; EnforceGCContent without sliding window returns an
    objective that still has no window. *)
Theorem localized_without_window_widens :
  (∀ (S : EnforceGCContent.t) (W : interval) (g : Z),
     EnforceGCContent.window S = None →
     EnforceGCContent.gc_window S = Some g →
     0 ≤ g → 0 ≤ W.1 →
     ∃ S', EnforceGCContent.localized S W = Localized S'
           ∧ EnforceGCContent.window S' = Some (Z.max 0 (W.1 - g), W.2 + g)
           ∧ window_covers (Z.max 0 (W.1 - g), W.2 + g) W
           ∧ EnforceGCContent.gc_min S' = EnforceGCContent.gc_min S
           ∧ EnforceGCContent.gc_max S' = EnforceGCContent.gc_max S
           ∧ EnforceGCContent.gc_window S' = Some g)
  ∧ (∀ (S : EnforceGCContent.t) (W : interval),
       EnforceGCContent.window S = None →
       EnforceGCContent.gc_window S = None →
       EnforceGCContent.localized S W = Localized S)
  ∧ (∀ (S : AvoidBlastMatches.t) (W : interval),
       AvoidBlastMatches.window S = None →
       0 ≤ AvoidBlastMatches.min_align_length S → 0 ≤ W.1 →
       let g := AvoidBlastMatches.min_align_length S in
       ∃ S', AvoidBlastMatches.localized S W = Localized S'
             ∧ AvoidBlastMatches.window S'
               = Some (Z.max 0 (W.1 - g), W.2 + g)
             ∧ window_covers (Z.max 0 (W.1 - g), W.2 + g) W
             ∧ AvoidBlastMatches.parameters S' = AvoidBlastMatches.parameters S
             ∧ AvoidBlastMatches.min_align_length S' = g).
Proof.
  split; [|split].
  - intros S W g Hwin Hgcw Hg HW. unfold EnforceGCContent.localized.
    rewrite Hwin, Hgcw. eexists. split; [reflexivity|]. simpl.
    split; [reflexivity|]. split; [split; simpl; lia|].
    split; [reflexivity|]. split; [reflexivity | exact Hgcw].
  - intros S W Hwin Hgcw. unfold EnforceGCContent.localized.
    rewrite Hwin, Hgcw. destruct S. simpl in *. subst. reflexivity.
  - intros S W Hwin Hg HW g. unfold AvoidBlastMatches.localized.
    rewrite Hwin. eexists. split; [reflexivity|]. simpl.
    split; [reflexivity|]. split; [split; simpl; lia|].
    split; reflexivity.
Qed.

Lemma localized_without_window_widens_witness :
  (∃ S', EnforceGCContent.localized gc_at_most_four_fifths (3, 10)
         = Localized S'
         ∧ EnforceGCContent.window S' = Some (0, 15))
  ∧ EnforceGCContent.localized
      (EnforceGCContent.init 0 1 None None None 1) (3, 10)
    = Localized (EnforceGCContent.init 0 1 None None None 1)
  ∧ (∃ S', AvoidBlastMatches.localized
             (AvoidBlastMatches.copy_with_window blast_example None) (30, 40)
           = Localized S'
           ∧ AvoidBlastMatches.window S' = Some (10, 60)).
Proof.
  destruct localized_without_window_widens as (Hgc & Hglobal & Hblast).
  split; [|split].
  - destruct (Hgc gc_at_most_four_fifths (3, 10) 5)
      as (S' & HS' & Hw & _); [reflexivity | reflexivity | lia | simpl; lia|].
    exists S'. split; [exact HS' | exact Hw].
  - apply Hglobal; reflexivity.
  - destruct (Hblast (AvoidBlastMatches.copy_with_window blast_example None)
                (30, 40))
      as (S' & HS' & Hw & _); [reflexivity | simpl; lia | simpl; lia|].
    exists S'. split; [exact HS' | exact Hw].
Defined.

(** ** AvoidBlastMatches *)

(** X5.  AvoidBlastMatches reports one window per BLAST hit that is at
    least [min_align_length] long, shifted by the start of the evaluated
    window and with its ends in order; the windows are sorted, each is at
    least [min_align_length] wide, and the score is 1 when there is no such
    hit and otherwise minus their number, so it is never 0. *)
Theorem blast_score_counts_long_hits `{Biotools} (S : AvoidBlastMatches.t)
    (sequence : str) :
  let w := default (0, len sequence) (AvoidBlastMatches.window S) in
  let hits :=
    blast_sequence (py_slice sequence w.1 w.2) (AvoidBlastMatches.parameters S)
  in
  let long :=
    filter (λ hit : Z * Z,
              AvoidBlastMatches.min_align_length S ≤ Z.abs (hit.2 - hit.1))
      hits in
  let e := AvoidBlastMatches.evaluate S sequence in
  score e = match long with [] => 1 | _ => - len long end
  ∧ score e ≠ 0
  ∧ violated_windows e
    ≡ₚ map (λ hit : Z * Z,
              (Z.min (hit.1 + w.1) (hit.2 + w.1),
               Z.max (hit.1 + w.1) (hit.2 + w.1))) long
  ∧ Sorted window_le (violated_windows e)
  ∧ Forall (λ v : interval,
              v.1 + AvoidBlastMatches.min_align_length S ≤ v.2)
      (violated_windows e).
Proof.
  intros w hits long e.
  assert (He : e = scan_result (AvoidBlastMatches.hit_windows S w.1 hits))
    by reflexivity.
  destruct (scan_result_spec (AvoidBlastMatches.hit_windows S w.1 hits))
    as (Hv & Hs0 & Hs).
  assert (Hperm : AvoidBlastMatches.hit_windows S w.1 hits
                  ≡ₚ map (λ hit : Z * Z,
                            (Z.min (hit.1 + w.1) (hit.2 + w.1),
                             Z.max (hit.1 + w.1) (hit.2 + w.1))) long)
    by apply merge_sort_Permutation.
  assert (Hlen : len (AvoidBlastMatches.hit_windows S w.1 hits) = len long).
  { unfold len. rewrite Hperm, length_map. reflexivity. }
  rewrite He, Hv.
  assert (Hscore : score (scan_result (AvoidBlastMatches.hit_windows S w.1 hits))
                   = match long with [] => 1 | _ => - len long end).
  { destruct long as [|h long'] eqn:Hlong.
    - apply Hs0. apply Permutation_nil_r in Hperm. exact Hperm.
    - rewrite Hs, Hlen; [reflexivity|].
      intros Hnil. rewrite Hnil in Hlen. discriminate Hlen. }
  split; [exact Hscore|]. split.
  { rewrite Hscore. destruct long; [discriminate|]. unfold len. simpl. lia. }
  split; [exact Hperm|].
  split; [apply Sorted_merge_sort; apply _|].
  rewrite Hperm. apply Forall_map, Forall_forall.
  intros hit Hhit. apply list_elem_of_filter in Hhit as [Hlong _].
  simpl. lia.
Qed.

(** ** The uniqueness scanner on repeats *)

Lemma recorded_occurrences_bounds (length : Z) (rc : bool) (sequence k : str)
    (p : interval) :
  0 ≤ length →
  p ∈ recorded_occurrences length rc sequence k →
  0 ≤ p.1 ∧ p.2 = p.1 + length ∧ p.2 ≤ len sequence.
Proof.
  intros HL. unfold recorded_occurrences, forward_occurrences,
    reverse_occurrences, py_range.
  rewrite elem_of_app. intros [Hp|Hp].
  - apply list_elem_of_fmap in Hp as (i & -> & Hi).
    apply list_elem_of_filter in Hi as [_ Hi]. apply elem_of_seqZ in Hi.
    simpl. lia.
  - destruct rc; [|inversion Hp].
    apply list_elem_of_fmap in Hp as (i & -> & Hi).
    apply list_elem_of_filter in Hi as [_ Hi]. apply elem_of_seqZ in Hi.
    simpl. lia.
Qed.

Lemma filter_two_elements {A} `{EqDecision A} (P : A → Prop)
    `{∀ x, Decision (P x)} (l : list A) :
  NoDup l →
  (1 < length (filter P l))%nat
  ↔ ∃ x y, x ≠ y ∧ x ∈ l ∧ y ∈ l ∧ P x ∧ P y.
Proof.
  intros Hnodup. pose proof (NoDup_filter P l Hnodup) as Hf. split.
  - destruct (filter P l) as [|x [|y rest]] eqn:Heq; simpl; try lia.
    intros _. exists x, y.
    assert (Hx : x ∈ filter P l) by (rewrite Heq; left).
    assert (Hy : y ∈ filter P l) by (rewrite Heq; right; left).
    apply list_elem_of_filter in Hx as [HPx Hx].
    apply list_elem_of_filter in Hy as [HPy Hy].
    apply NoDup_cons in Hf as [Hnotin _].
    repeat split; try assumption.
    intros ->. apply Hnotin. left.
  - intros (x & y & Hne & Hx & Hy & HPx & HPy).
    assert (Hsub : [x; y] ⊆+ filter P l).
    { apply NoDup_submseteq.
      - repeat constructor; [|inversion 1].
        intros Hin. apply list_elem_of_singleton in Hin. contradiction.
      - intros z Hz. apply list_elem_of_filter.
        apply elem_of_cons in Hz as [->|Hz]; [split; assumption|].
        apply list_elem_of_singleton in Hz. subst z. split; assumption. }
    apply submseteq_length in Hsub. simpl in Hsub. lia.
Qed.

Lemma scanner_evaluate_windows (S : AvoidNonuniqueKmers.t) (sequence : str) :
  let w := default (0, len sequence) (AvoidNonuniqueKmers.window S) in
  let m :=
    kmers_locations (AvoidNonuniqueKmers.length S)
      (AvoidNonuniqueKmers.include_reverse_complement S)
      (py_slice sequence w.1 w.2) in
  violated_windows (AvoidNonuniqueKmers.evaluate S sequence)
  = repeated_windows m
  ∧ (repeated_keys m = [] →
     AvoidNonuniqueKmers.evaluate S sequence
     = {| score := 1; windows := None |})
  ∧ (repeated_keys m ≠ [] →
     score (AvoidNonuniqueKmers.evaluate S sequence) < 0).
Proof.
  intros w m.
  assert (He : AvoidNonuniqueKmers.evaluate S sequence
               = scan_result (repeated_windows m)) by reflexivity.
  destruct (repeated_windows_spec m) as (Hlen & _).
  destruct (scan_result_spec (repeated_windows m)) as (Hv & _ & Hs).
  rewrite He. split; [exact Hv|]. split.
  - intros Hnil. rewrite Hnil in Hlen.
    destruct (repeated_windows m); [reflexivity | discriminate Hlen].
  - intros Hne. rewrite Hs.
    + unfold len. destruct (repeated_windows m); simpl in *; [|lia].
      destruct (repeated_keys m); [contradiction | discriminate Hlen].
    + intros Hnil. rewrite Hnil in Hlen.
      destruct (repeated_keys m); [contradiction | discriminate Hlen].
Qed.

(** X6.  The windows that AvoidNonuniqueKmers reports, for a segment
    length that is not negative, are [length] wide and lie within
    [0, len(subsequence)]: they are positions in the evaluated subsequence,
    to which the start of the objective's window is not added. *)
Theorem scanner_windows_within_subsequence (S : AvoidNonuniqueKmers.t)
    (sequence : str) :
  0 ≤ AvoidNonuniqueKmers.length S →
  let w := default (0, len sequence) (AvoidNonuniqueKmers.window S) in
  Forall (λ v : interval,
            0 ≤ v.1 ∧ v.2 = v.1 + AvoidNonuniqueKmers.length S
            ∧ v.2 ≤ len (py_slice sequence w.1 w.2))
    (violated_windows (AvoidNonuniqueKmers.evaluate S sequence)).
Proof.
  intros HL w. destruct (scanner_evaluate_windows S sequence) as (-> & _).
  fold w. apply Forall_forall. intros v Hv.
  destruct (repeated_windows_spec
              (kmers_locations (AvoidNonuniqueKmers.length S)
                 (AvoidNonuniqueKmers.include_reverse_complement S)
                 (py_slice sequence w.1 w.2))) as (_ & Hin & _).
  destruct (Hin v Hv) as (k & _ & Hearly & _).
  rewrite kmers_locations_lookup in Hearly.
  exact (recorded_occurrences_bounds _ _ _ _ _ HL Hearly).
Qed.

Lemma scanner_windows_within_subsequence_witness :
  let S := {| AvoidNonuniqueKmers.length := 3;
              AvoidNonuniqueKmers.window := Some (4, 14);
              AvoidNonuniqueKmers.include_reverse_complement := false |} in
  let e := AvoidNonuniqueKmers.evaluate S (py "TTTTACGAACGATTTT") in
  violated_windows e = [(0, 3); (1, 4)]
  ∧ Forall (λ v : interval, 0 ≤ v.1 ∧ v.2 = v.1 + 3 ∧ v.2 ≤ 10)
      (violated_windows e).
Proof.
  intros S e. split; [vm_compute; reflexivity|].
  apply (scanner_windows_within_subsequence S (py "TTTTACGAACGATTTT")).
  simpl. lia.
Defined.

(** X7.  Without reverse complement, a key is repeated exactly when the
    subsequence holds it at two different starts below
    [len(subsequence) - length]; the evaluation then reports the window of
    the first such start. *)
Theorem scanner_reports_forward_repeats (S : AvoidNonuniqueKmers.t)
    (sequence : str) :
  AvoidNonuniqueKmers.include_reverse_complement S = false →
  let w := default (0, len sequence) (AvoidNonuniqueKmers.window S) in
  let subsequence := py_slice sequence w.1 w.2 in
  let L := AvoidNonuniqueKmers.length S in
  let m := kmers_locations L false subsequence in
  ∀ k : str,
    (k ∈ repeated_keys m
     ↔ ∃ i j, 0 ≤ i ∧ i < j ∧ j < len subsequence - L
              ∧ py_slice subsequence i (i + L) = k
              ∧ py_slice subsequence j (j + L) = k)
    ∧ (k ∈ repeated_keys m →
       ∃ i, (i, i + L)
            ∈ violated_windows (AvoidNonuniqueKmers.evaluate S sequence)
            ∧ py_slice subsequence i (i + L) = k
            ∧ ∀ j, 0 ≤ j → j < len subsequence - L →
                   py_slice subsequence j (j + L) = k → i ≤ j).
Proof.
  intros Hrc w subsequence L m k.
  assert (Hocc : default [] (m !! k)
                 = map (λ i, (i, i + L))
                     (filter (λ i, py_slice subsequence i (i + L) = k)
                        (seqZ 0 (len subsequence - L)))).
  { unfold m. rewrite kmers_locations_lookup.
    unfold recorded_occurrences, forward_occurrences, py_range.
    apply app_nil_r. }
  assert (Hv : violated_windows (AvoidNonuniqueKmers.evaluate S sequence)
               = repeated_windows m).
  { destruct (scanner_evaluate_windows S sequence) as (Hv & _).
    rewrite Hrc in Hv. exact Hv. }
  clearbody m.
  pose proof (elem_of_repeated_keys m k) as Hrk.
  unfold interval in Hocc, Hrk.
  rewrite Hocc, length_map in Hrk.
  rewrite (filter_two_elements _ _ (NoDup_seqZ _ _)) in Hrk.
  split.
  - rewrite Hrk. split.
    + intros (x & y & Hne & Hx & Hy & HPx & HPy).
      apply elem_of_seqZ in Hx, Hy.
      destruct (decide (x < y)).
      * exists x, y. repeat split; try assumption; lia.
      * exists y, x. repeat split; try assumption; lia.
    + intros (i & j & Hi & Hij & Hj & HPi & HPj).
      exists i, j. rewrite !elem_of_seqZ.
      repeat split; try assumption; lia.
  - intros Hk. rewrite Hv.
    destruct (repeated_windows_spec m) as (_ & _ & Hout & _).
    destruct (Hout k Hk) as (v & Hvin & Hin & Hleast).
    unfold interval in Hin, Hleast. rewrite Hocc in Hin, Hleast.
    apply list_elem_of_fmap in Hin as (i & -> & Hi).
    apply list_elem_of_filter in Hi as [HPi Hi].
    exists i. split; [exact Hvin|]. split; [exact HPi|].
    intros j Hj0 Hj HPj.
    apply (Hleast (j, j + L)). apply list_elem_of_fmap. exists j.
    split; [reflexivity|]. apply list_elem_of_filter. split; [exact HPj|].
    apply elem_of_seqZ. lia.
Qed.

Lemma scanner_reports_forward_repeats_witness :
  let S := {| AvoidNonuniqueKmers.length := 3;
              AvoidNonuniqueKmers.window := None;
              AvoidNonuniqueKmers.include_reverse_complement := false |} in
  let sequence := py "ACGAACGATT" in
  py "ACG" ∈ repeated_keys (kmers_locations 3 false sequence)
  ∧ ∃ i, (i, i + 3)
         ∈ violated_windows (AvoidNonuniqueKmers.evaluate S sequence)
         ∧ py_slice sequence i (i + 3) = py "ACG".
Proof.
  intros S sequence.
  destruct (scanner_reports_forward_repeats S sequence eq_refl (py "ACG"))
    as [Hiff Hfirst].
  assert (Hk : py "ACG" ∈ repeated_keys (kmers_locations 3 false sequence)).
  { apply Hiff. exists 0, 4. vm_compute. repeat split; discriminate. }
  split; [exact Hk|].
  destruct (Hfirst Hk) as (i & Hi & Hslice & _).
  exists i. split; [exact Hi | exact Hslice].
Defined.

(** X8.  With reverse complement, a segment of the subsequence that equals
    a segment of its reverse complement makes a repeated key, also when the
    two are the same place read on both strands: the evaluation fails with
    a negative score. *)
Theorem scanner_counts_reverse_complement (S : AvoidNonuniqueKmers.t)
    (sequence : str) (i j : Z) :
  AvoidNonuniqueKmers.include_reverse_complement S = true →
  let w := default (0, len sequence) (AvoidNonuniqueKmers.window S) in
  let subsequence := py_slice sequence w.1 w.2 in
  let L := AvoidNonuniqueKmers.length S in
  0 ≤ i → i < len subsequence - L →
  0 ≤ j → j < len subsequence - L →
  py_slice subsequence i (i + L)
  = py_slice (reverse_complement subsequence) j (j + L) →
  py_slice subsequence i (i + L)
  ∈ repeated_keys (kmers_locations L true subsequence)
  ∧ score (AvoidNonuniqueKmers.evaluate S sequence) < 0.
Proof.
  intros Hrc w subsequence L Hi0 Hi Hj0 Hj Heq.
  assert (Hk : py_slice subsequence i (i + L)
               ∈ repeated_keys (kmers_locations L true subsequence)).
  { rewrite elem_of_repeated_keys, kmers_locations_lookup.
    unfold recorded_occurrences, forward_occurrences, reverse_occurrences,
      py_range.
    rewrite length_app, !length_map.
    assert (Hf : i ∈ filter (λ x, py_slice subsequence x (x + L)
                                  = py_slice subsequence i (i + L))
                   (seqZ 0 (len subsequence - L))).
    { apply list_elem_of_filter. split; [reflexivity|].
      apply elem_of_seqZ. lia. }
    assert (Hr : j ∈ filter (λ x, py_slice (reverse_complement subsequence) x
                                    (x + L)
                                  = py_slice subsequence i (i + L))
                   (seqZ 0 (len subsequence - L))).
    { apply list_elem_of_filter. split; [symmetry; exact Heq|].
      apply elem_of_seqZ. lia. }
    destruct (filter _ (seqZ 0 (len subsequence - L))) as [|? ?] eqn:E1;
      [inversion Hf|].
    destruct (filter (λ x, py_slice (reverse_complement subsequence) x (x + L)
                           = _) (seqZ 0 (len subsequence - L)))
      as [|? ?] eqn:E2; [inversion Hr|].
    simpl. lia. }
  split; [exact Hk|].
  destruct (scanner_evaluate_windows S sequence) as (_ & _ & Hneg).
  rewrite Hrc in Hneg. apply Hneg.
  intros Hnil. fold w subsequence L in Hnil. rewrite Hnil in Hk. inversion Hk.
Qed.

Lemma scanner_counts_reverse_complement_witness :
  let S := {| AvoidNonuniqueKmers.length := 4;
              AvoidNonuniqueKmers.window := None;
              AvoidNonuniqueKmers.include_reverse_complement := true |} in
  score (AvoidNonuniqueKmers.evaluate S (py "AACGTTA")) < 0
  ∧ score (AvoidNonuniqueKmers.evaluate
             {| AvoidNonuniqueKmers.length := 4;
                AvoidNonuniqueKmers.window := None;
                AvoidNonuniqueKmers.include_reverse_complement := false |}
             (py "AACGTTA")) = 1.
Proof.
  intros S. split; [|vm_compute; reflexivity].
  apply (scanner_counts_reverse_complement S (py "AACGTTA") 1 2).
  - reflexivity.
  - lia.
  - vm_compute. reflexivity.
  - lia.
  - vm_compute. reflexivity.
  - vm_compute. reflexivity.
Defined.

(** X9.  A subsequence that is not longer than the segment length has no
    start to visit: AvoidNonuniqueKmers and AvoidNonuniqueSegments pass
    with score 1 and no window, also when the subsequence is exactly one
    segment long. *)
Theorem scanner_short_subsequence_passes (length : Z)
    (window : option interval) (rc : bool) (sequence : str) :
  let w := default (0, len sequence) window in
  len (py_slice sequence w.1 w.2) ≤ length →
  AvoidNonuniqueKmers.evaluate
    {| AvoidNonuniqueKmers.length := length;
       AvoidNonuniqueKmers.window := window;
       AvoidNonuniqueKmers.include_reverse_complement := rc |} sequence
  = {| score := 1; windows := None |}
  ∧ AvoidNonuniqueSegments.evaluate
      {| AvoidNonuniqueSegments.length := length;
         AvoidNonuniqueSegments.window := window;
         AvoidNonuniqueSegments.include_reverse_complement := rc |} sequence
    = {| score := 1; windows := None |}.
Proof.
  intros w Hshort.
  assert (Hempty : kmers_locations length rc (py_slice sequence w.1 w.2) = ∅).
  { unfold kmers_locations, scan_reverse, scan_forward, py_range.
    rewrite !seqZ_nil by lia. destruct rc; reflexivity. }
  unfold AvoidNonuniqueKmers.evaluate, AvoidNonuniqueSegments.evaluate.
  simpl. fold w. rewrite Hempty. split; reflexivity.
Qed.

Lemma scanner_short_subsequence_passes_witness :
  AvoidNonuniqueKmers.evaluate
    {| AvoidNonuniqueKmers.length := 5;
       AvoidNonuniqueKmers.window := Some (2, 7);
       AvoidNonuniqueKmers.include_reverse_complement := true |}
    (py "AACGTTAAGG")
  = {| score := 1; windows := None |}.
Proof.
  apply (scanner_short_subsequence_passes 5 (Some (2, 7)) true
           (py "AACGTTAAGG")).
  vm_compute. discriminate.
Defined.

(** ** Slices of reversed sequences, and AvoidIDTHairpins *)

Lemma py_slice_drop_take {A} (s : list A) (a b : Z) :
  0 ≤ a → 0 ≤ b →
  py_slice s a b = drop (Z.to_nat a) (take (Z.to_nat b) s).
Proof.
  intros Ha Hb. unfold py_slice, slice_index, len.
  rewrite !decide_False by lia.
  destruct (decide (Z.to_nat b ≤ Z.to_nat a)%nat) as [Hle|Hlt].
  - rewrite (drop_ge (take _ _)) by (rewrite length_take; lia).
    replace (Z.to_nat (Z.min b (Z.of_nat (length s))
                       - Z.min a (Z.of_nat (length s)))) with 0%nat by lia.
    reflexivity.
  - destruct (decide (length s ≤ Z.to_nat a)%nat) as [Hshort|Hlong].
    + rewrite (drop_ge (take _ _)) by (rewrite length_take; lia).
      rewrite drop_ge by lia. apply take_nil.
    + rewrite take_drop_commute. f_equal; [lia|].
      destruct (decide (Z.to_nat b ≤ length s)%nat).
      * f_equal. lia.
      * rewrite !take_ge by lia. reflexivity.
Qed.

Lemma py_slice_map {A B} (f : A → B) (s : list A) (a b : Z) :
  py_slice (map f s) a b = map f (py_slice s a b).
Proof.
  unfold py_slice, len. rewrite length_map.
  change (map f) with (fmap (M := list) f).
  rewrite fmap_take, fmap_drop. reflexivity.
Qed.

Lemma py_slice_rev {A} (s : list A) (a b : Z) :
  0 < b → b ≤ a → a ≤ len s →
  py_slice (rev s) (- a) (- b) = rev (py_slice s b a).
Proof.
  intros Hb Hba Ha. rewrite (py_slice_drop_take s) by lia.
  unfold py_slice, slice_index, len in *. rewrite length_rev.
  rewrite !decide_True by lia.
  replace (Z.to_nat (Z.max 0 (Z.of_nat (length s) + - a)))
    with (length s - Z.to_nat a)%nat by lia.
  replace (Z.to_nat (Z.max 0 (Z.of_nat (length s) + - b)
                     - Z.max 0 (Z.of_nat (length s) + - a)))
    with (Z.to_nat a - Z.to_nat b)%nat by lia.
  rewrite skipn_rev, firstn_rev, length_firstn.
  f_equal. f_equal; [lia|]. f_equal. lia.
Qed.

Lemma py_in_spec (word rest : str) :
  py_in word rest = true ↔ ∃ pre post, rest = pre ++ word ++ post.
Proof.
  unfold py_in. rewrite bool_decide_eq_true, Exists_exists. split.
  - intros (k & Hk & Hslice). apply elem_of_seqZ in Hk.
    rewrite py_slice_drop_take in Hslice by (pose proof (len_nonneg word); lia).
    exists (take (Z.to_nat k) rest),
      (drop (Z.to_nat (k + len word)) rest).
    assert (Hlong : (Z.to_nat k ≤ Z.to_nat (k + len word)
                     ∧ Z.to_nat (k + len word) ≤ length rest)%nat)
      by (unfold len in *; lia).
    remember (Z.to_nat (k + len word)) as stop eqn:Hstop. clear Hstop.
    rewrite <- Hslice.
    rewrite <- (take_drop (Z.to_nat k) rest) at 1. f_equal.
    rewrite <- (take_drop stop rest) at 1.
    rewrite drop_app_le by (rewrite length_take; lia).
    reflexivity.
  - intros (pre & post & ->). exists (len pre).
    pose proof (len_nonneg pre). pose proof (len_nonneg word).
    pose proof (len_nonneg post). split.
    + apply elem_of_seqZ. unfold len in *. rewrite !length_app. lia.
    + rewrite py_slice_drop_take by lia. unfold len.
      replace (Z.to_nat (Z.of_nat (length pre) + Z.of_nat (length word)))
        with (length pre + length word)%nat by lia.
      rewrite Nat2Z.id, app_assoc, take_app_length'
        by (rewrite length_app; reflexivity).
      rewrite drop_app_length. reflexivity.
Qed.

(** X10.  AvoidIDTHairpins, for a stem that is not empty and not longer
    than the hairpin window: a window [(i, i + hairpin_window)] is reported
    exactly when [i] is a start below [len(sequence) - hairpin_window] and
    the stem [sequence[i:i + stem_size]] occurs in the reverse complement
    of the rest of the window, [sequence[i + stem_size:i + hairpin_window]];
    the score is minus the number of reported windows. *)
Theorem hairpins_stem_in_rest_of_window (S : AvoidIDTHairpins.t)
    (sequence : str) :
  0 < AvoidIDTHairpins.stem_size S →
  AvoidIDTHairpins.stem_size S ≤ AvoidIDTHairpins.hairpin_window S →
  let stem := AvoidIDTHairpins.stem_size S in
  let hw := AvoidIDTHairpins.hairpin_window S in
  let e := AvoidIDTHairpins.evaluate S sequence in
  score e = - len (violated_windows e)
  ∧ ∀ v : interval,
      v ∈ violated_windows e
      ↔ ∃ i pre post,
          v = (i, i + hw) ∧ 0 ≤ i ∧ i < len sequence - hw
          ∧ reverse_complement (py_slice sequence (i + stem) (i + hw))
            = pre ++ py_slice sequence i (i + stem) ++ post.
Proof.
  intros Hstem Hhw stem hw e. split; [reflexivity|].
  intros v. unfold e, AvoidIDTHairpins.evaluate, violated_windows. simpl.
  fold stem hw. rewrite list_elem_of_fmap.
  assert (Hrest : ∀ i, 0 ≤ i → i < len sequence - hw →
            AvoidIDTHairpins.stem_in_rest S sequence
              (reverse_complement sequence) i = true
            ↔ ∃ pre post,
                reverse_complement (py_slice sequence (i + stem) (i + hw))
                = pre ++ py_slice sequence i (i + stem) ++ post).
  { intros i Hi0 Hi. unfold AvoidIDTHairpins.stem_in_rest. fold stem hw.
    rewrite py_in_spec. unfold reverse_complement at 1.
    rewrite py_slice_map, py_slice_rev by lia. reflexivity. }
  split.
  - intros (i & -> & Hi). apply list_elem_of_filter in Hi as [Htest Hi].
    apply elem_of_seqZ in Hi.
    apply Hrest in Htest as (pre & post & Heq); [|lia|lia].
    exists i, pre, post. repeat split; try assumption; lia.
  - intros (i & pre & post & -> & Hi0 & Hi & Heq).
    exists i. split; [reflexivity|]. apply list_elem_of_filter.
    split; [apply Hrest; [lia | lia | eauto]|].
    apply elem_of_seqZ. lia.
Qed.

Lemma hairpins_stem_in_rest_of_window_witness :
  let S := {| AvoidIDTHairpins.stem_size := 3;
              AvoidIDTHairpins.hairpin_window := 10;
              AvoidIDTHairpins.boost := 1 |} in
  let e := AvoidIDTHairpins.evaluate S (py "GGGACGTTTTCGTAAAA") in
  violated_windows e = [(3, 13); (6, 16)]
  ∧ (3, 13) ∈ violated_windows e
  ∧ score e = -2.
Proof.
  intros S e.
  destruct (hairpins_stem_in_rest_of_window S (py "GGGACGTTTTCGTAAAA"))
    as [Hscore Hiff]; [simpl; lia | simpl; lia|].
  split; [vm_compute; reflexivity|]. split; [|vm_compute; reflexivity].
  apply Hiff. exists 3, [], (py "AAAA"). vm_compute.
  repeat split; discriminate.
Defined.

(** ** DoNotModify *)

Lemma py_slice_inside {A} (s t : list A) (a b c d : Z) :
  0 ≤ a → a ≤ c → c ≤ d → d ≤ b →
  py_slice s a b = py_slice t a b → py_slice s c d = py_slice t c d.
Proof.
  intros Ha Hac Hcd Hdb Heq.
  assert (Hsub : ∀ u : list A,
            py_slice u c d
            = drop (Z.to_nat c - Z.to_nat a)
                (take (Z.to_nat d - Z.to_nat a) (py_slice u a b))).
  { intros u. rewrite !py_slice_drop_take by lia.
    rewrite take_drop_commute, take_take, drop_drop.
    f_equal; [lia|]. f_equal. lia. }
  rewrite (Hsub s), (Hsub t), Heq. reflexivity.
Qed.

(** X11.  DoNotModify on a window that does not start before 0: when the
    objective passes, the sequence being equal to the original on its
    window, every objective that [localize] narrows it to passes too. *)
Theorem do_not_modify_localize_keeps_pass (S S' : DoNotModify.t)
    (own W : interval) (sequence original : str) :
  DoNotModify.selected S = DoNotModify.Window own →
  0 ≤ own.1 →
  DoNotModify.evaluate S sequence original
  = Ok {| score := 1; windows := None |} →
  DoNotModify.localize S W = Localized S' →
  DoNotModify.evaluate S' sequence original
  = Ok {| score := 1; windows := None |}
  ∧ ∃ new_window, DoNotModify.selected S' = DoNotModify.Window new_window
                  ∧ window_covers own new_window
                  ∧ window_covers W new_window.
Proof.
  intros Hown Hstart Hpass Hloc.
  unfold DoNotModify.evaluate in Hpass. rewrite Hown in Hpass.
  case_decide as Heq; [|discriminate].
  unfold DoNotModify.localize in Hloc. rewrite Hown in Hloc.
  unfold windows_overlap in Hloc. case_decide as Hlt; [|discriminate].
  injection Hloc as <-. unfold DoNotModify.evaluate. simpl. split.
  - rewrite decide_True; [reflexivity|].
    apply (py_slice_inside sequence original own.1 own.2); try lia.
    exact Heq.
  - eexists. split; [reflexivity|]. unfold window_covers. simpl. lia.
Qed.

Lemma do_not_modify_localize_keeps_pass_witness :
  let S := {| DoNotModify.selected := DoNotModify.Window (2, 8);
              DoNotModify.boost := 1 |} in
  let S' := {| DoNotModify.selected := DoNotModify.Window (4, 8);
               DoNotModify.boost := 1 |} in
  DoNotModify.evaluate S' (py "CCATGAAACC") (py "GGATGAAAGG")
  = Ok {| score := 1; windows := None |}.
Proof.
  intros S S'.
  apply (do_not_modify_localize_keeps_pass S S' (2, 8) (4, 12)
           (py "CCATGAAACC") (py "GGATGAAAGG")).
  - reflexivity.
  - simpl. lia.
  - vm_compute. reflexivity.
  - vm_compute. reflexivity.
Defined.

Lemma mapM_Ok_pointwise {A B} (f g : A → result B) (l : list A)
    (ys : list B) :
  mapM f l = Ok ys → mapM g l = Ok ys →
  length ys = length l ∧ ∀ x, x ∈ l → f x = g x ∧ ∃ y, f x = Ok y.
Proof.
  revert ys. induction l as [|x l IH]; intros ys; simpl.
  - intros [= <-] _. split; [reflexivity|]. intros x Hx. inversion Hx.
  - destruct (f x) as [y|] eqn:Hf; simpl; [|discriminate].
    destruct (mapM f l) as [ys'|] eqn:Hfl; simpl; [|discriminate].
    intros [= <-].
    destruct (g x) as [y'|] eqn:Hg; simpl; [|discriminate].
    destruct (mapM g l) as [ys''|] eqn:Hgl; simpl; [|discriminate].
    intros [= -> ->]. destruct (IH ys' eq_refl eq_refl) as [Hlen Hall].
    split; [simpl; lia|]. intros z Hz.
    apply elem_of_cons in Hz as [->|Hz]; [|apply Hall, Hz].
    rewrite Hf, Hg. split; [reflexivity | eauto].
Qed.

Lemma mapM_pointwise_Ok {A B} (f g : A → result B) (l : list A) :
  (∀ x, x ∈ l → f x = g x ∧ ∃ y, f x = Ok y) →
  ∃ ys, mapM f l = Ok ys ∧ mapM g l = Ok ys ∧ length ys = length l.
Proof.
  induction l as [|x l IH]; intros Hall; simpl.
  - exists []. repeat split.
  - destruct (Hall x) as [Hfg [y Hy]]; [left|].
    destruct IH as (ys & Hf & Hg & Hlen);
      [intros z Hz; apply Hall; right; exact Hz|].
    rewrite <- Hfg, Hy, Hf, Hg. simpl. exists (y :: ys).
    repeat split. simpl. lia.
Qed.

(** X12.  DoNotModify on indices: [localize] keeps the indices between the
    start and the end of the window, both included.  When the objective
    passes, the narrowed objective passes too if one of the indices lies
    in the window; if none does, its evaluation raises a value error, the
    minimum of an empty array. *)
Theorem do_not_modify_localize_indices (S : DoNotModify.t) (inds : list Z)
    (W : interval) (sequence original : str) :
  DoNotModify.selected S = DoNotModify.Indices inds →
  DoNotModify.evaluate S sequence original
  = Ok {| score := 1; windows := None |} →
  let kept := filter (λ i, W.1 ≤ i ∧ i ≤ W.2) inds in
  let S' := {| DoNotModify.selected := DoNotModify.Indices kept;
               DoNotModify.boost := DoNotModify.boost S |} in
  DoNotModify.localize S W = Localized S'
  ∧ (kept ≠ [] →
     DoNotModify.evaluate S' sequence original
     = Ok {| score := 1; windows := None |})
  ∧ (kept = [] →
     ∃ msg, DoNotModify.evaluate S' sequence original
            = Raise (ValueError msg)).
Proof.
  intros Hsel Hpass kept S'.
  split; [unfold DoNotModify.localize; rewrite Hsel; reflexivity|].
  unfold DoNotModify.evaluate in Hpass. rewrite Hsel in Hpass.
  destruct (np_take sequence inds) as [a|] eqn:Ha; simpl in Hpass;
    [|discriminate].
  destruct (np_take original inds) as [b|] eqn:Hb; simpl in Hpass;
    [|discriminate].
  destruct a as [|x a]; [discriminate|]. simpl in Hpass.
  case_bool_decide as Hab; [|discriminate]. subst b.
  destruct (mapM_Ok_pointwise _ _ inds (x :: a) Ha Hb) as [_ Hall].
  destruct (mapM_pointwise_Ok
              (λ i, if decide (- len sequence ≤ i ∧ i < len sequence)
                    then from_option IndexError
                           (sequence !! Z.to_nat (i `mod` len sequence))
                    else Raise IndexError)
              (λ i, if decide (- len original ≤ i ∧ i < len original)
                    then from_option IndexError
                           (original !! Z.to_nat (i `mod` len original))
                    else Raise IndexError)
              kept) as (ys & Hs & Ho & Hlen).
  { intros i Hi. apply list_elem_of_filter in Hi as [_ Hi]. apply Hall, Hi. }
  change (np_take sequence kept = Ok ys) in Hs.
  change (np_take original kept = Ok ys) in Ho.
  unfold DoNotModify.evaluate, S'. cbn [DoNotModify.selected].
  rewrite Hs, Ho. simpl. split.
  - intros Hne. destruct ys as [|y ys];
      [destruct kept; [contradiction | discriminate Hlen]|].
    simpl. rewrite bool_decide_eq_true_2 by reflexivity. reflexivity.
  - intros Hnil. rewrite Hnil in Hlen. destruct ys; [|discriminate Hlen].
    simpl. eexists. reflexivity.
Qed.

Lemma do_not_modify_localize_indices_witness :
  let S := {| DoNotModify.selected := DoNotModify.Indices [1; 4; 7];
              DoNotModify.boost := 1 |} in
  DoNotModify.evaluate
    {| DoNotModify.selected := DoNotModify.Indices [4; 7];
       DoNotModify.boost := 1 |} (py "CAATGAACCC") (py "GAGTGTACGG")
  = Ok {| score := 1; windows := None |}
  ∧ ∃ msg, DoNotModify.evaluate
             {| DoNotModify.selected := DoNotModify.Indices [];
                DoNotModify.boost := 1 |} (py "CAATGAACCC") (py "GAGTGTACGG")
           = Raise (ValueError msg).
Proof.
  intros S. split.
  - apply (do_not_modify_localize_indices S [1; 4; 7] (4, 7)
             (py "CAATGAACCC") (py "GAGTGTACGG") eq_refl).
    + vm_compute. reflexivity.
    + discriminate.
  - apply (do_not_modify_localize_indices S [1; 4; 7] (2, 3)
             (py "CAATGAACCC") (py "GAGTGTACGG") eq_refl).
    + vm_compute. reflexivity.
    + reflexivity.
Defined.

(** ** EnforceTranslation *)

(** X13.  The constructor of EnforceTranslation needs the translation: with
    [translation=None] it raises a type error, so an objective that it
    builds never asks for its translation to be computed from the problem,
    and [initialize_problem] returns it unchanged. *)
Theorem translation_is_never_derived `{Biotools} :
  (∀ (window : option interval) (strand : Z) (boost : Q),
     EnforceTranslation.init window strand None boost = Raise TypeError)
  ∧ (∀ (window : option interval) (strand : Z) (translation : option str)
       (boost : Q) (S : EnforceTranslation.t) (problem_sequence : str),
       EnforceTranslation.init window strand translation boost = Ok S →
       EnforceTranslation.initialize_translation_from_problem S = false
       ∧ EnforceTranslation.translation S = translation
       ∧ EnforceTranslation.initialize_problem S problem_sequence = Ok S).
Proof.
  split.
  - intros [w|] strand boost; reflexivity.
  - intros window strand translation boost S problem_sequence.
    unfold EnforceTranslation.init.
    destruct window as [w|]; simpl; [|discriminate].
    destruct translation as [tr|]; simpl; [|discriminate].
    case_decide; [discriminate|]. intros [= <-].
    unfold EnforceTranslation.initialize_problem. simpl.
    repeat split.
Qed.

Lemma translation_is_never_derived_witness :
  EnforceTranslation.initialize_problem (H := small_biotools)
    translation_example (py "CCATGAAACC")
  = Ok translation_example.
Proof.
  apply (proj2 (@translation_is_never_derived small_biotools)
           (Some (2, 8)) 1 (Some (py "MK")) 1%Q translation_example
           (py "CCATGAAACC")).
  reflexivity.
Defined.

Lemma py_slice_clamp {A} (s : list A) (a b : Z) :
  0 ≤ a → 0 ≤ b → py_slice s a b = py_slice s a (Z.min b (len s)).
Proof.
  intros Ha Hb. pose proof (len_nonneg s).
  rewrite !py_slice_drop_take by lia. f_equal.
  destruct (decide (b ≤ len s)); [rewrite Z.min_l by lia; reflexivity|].
  rewrite Z.min_r by lia. unfold len in *.
  rewrite !take_ge by lia. reflexivity.
Qed.

(** X14.  The window of a localized EnforceTranslation whose window is 3
    times as long as its translation, for a window [W] that overlaps it:
    the new window contains the overlap, lies within the own window, and
    starts and ends a whole number of codons after the start of the own
    window; the new translation is the part of the translation for these
    codons, and strand and boost are kept. *)
Theorem translation_localized_on_codons (S : EnforceTranslation.t)
    (own W : interval) (tr : str) :
  EnforceTranslation.window S = Some own →
  EnforceTranslation.translation S = Some tr →
  own.2 - own.1 = 3 * len tr →
  windows_share_position W own →
  ∃ S' new_window,
    EnforceTranslation.localized S W = Ok (Localized S')
    ∧ EnforceTranslation.window S' = Some new_window
    ∧ new_window.1 ≤ Z.max W.1 own.1
    ∧ Z.min W.2 own.2 ≤ new_window.2
    ∧ window_covers own new_window
    ∧ (new_window.1 - own.1) `mod` 3 = 0
    ∧ (new_window.2 - own.1) `mod` 3 = 0
    ∧ EnforceTranslation.translation S'
      = Some (py_slice tr ((new_window.1 - own.1) `div` 3)
                ((new_window.2 - own.1) `div` 3))
    ∧ EnforceTranslation.strand S' = EnforceTranslation.strand S
    ∧ EnforceTranslation.boost S' = EnforceTranslation.boost S.
Proof.
  destruct S as [boost w t strand flag]. simpl. intros -> -> Hsize Hshare.
  unfold EnforceTranslation.localized. simpl.
  destruct (windows_overlap W own) as [[o_start o_end]|] eqn:Hoverlap;
    [|apply windows_overlap_None in Hoverlap; contradiction].
  unfold windows_overlap in Hoverlap. case_decide as Hlt; [|discriminate].
  injection Hoverlap as Hstart Hend.
  destruct own as [w_start w_end]. simpl in *.
  set (start_codon := (o_start - w_start) `div` 3).
  set (end_codon := (o_end - w_start) `div` 3).
  pose proof (len_nonneg tr) as Hn.
  pose proof (Z.div_mod (o_start - w_start) 3 ltac:(lia)) as Hdiv1.
  pose proof (Z.mod_pos_bound (o_start - w_start) 3 ltac:(lia)) as Hmod1.
  pose proof (Z.div_mod (o_end - w_start) 3 ltac:(lia)) as Hdiv2.
  pose proof (Z.mod_pos_bound (o_end - w_start) 3 ltac:(lia)) as Hmod2.
  fold start_codon in Hdiv1. fold end_codon in Hdiv2.
  assert (Hlen : len (py_slice tr start_codon (end_codon + 1))
                 = Z.min (end_codon + 1) (len tr) - start_codon).
  { rewrite length_py_slice by lia. lia. }
  unfold EnforceTranslation.init. simpl.
  case_decide as Hbad; [exfalso; apply Hbad; rewrite Hlen; lia|].
  eexists _, _. split; [reflexivity|]. simpl.
  split; [reflexivity|]. simpl.
  assert (Hstop : Z.min w_end (w_start + 3 * (end_codon + 1)) - w_start
                  = 3 * Z.min (end_codon + 1) (len tr)) by lia.
  split; [lia|]. split; [lia|]. split; [split; simpl; lia|].
  split; [replace (w_start + 3 * start_codon - w_start)
            with (start_codon * 3) by lia; apply Z.mod_mul; lia|].
  split; [rewrite Hstop, Z.mul_comm; apply Z.mod_mul; lia|].
  split; [|split; reflexivity].
  rewrite Hstop. f_equal.
  replace (w_start + 3 * start_codon - w_start) with (start_codon * 3) by lia.
  rewrite Z.div_mul by lia.
  rewrite (Z.mul_comm 3), Z.div_mul by lia.
  apply py_slice_clamp; lia.
Qed.

Lemma translation_localized_on_codons_witness :
  ∃ S', EnforceTranslation.localized
          {| EnforceTranslation.boost := 1;
             EnforceTranslation.window := Some (10, 25);
             EnforceTranslation.translation := Some (py "MKKL*");
             EnforceTranslation.strand := 1;
             EnforceTranslation.initialize_translation_from_problem := false |}
          (14, 18) = Ok (Localized S')
        ∧ EnforceTranslation.window S' = Some (13, 19)
        ∧ EnforceTranslation.translation S' = Some (py "KK").
Proof.
  destruct (translation_localized_on_codons
              {| EnforceTranslation.boost := 1;
                 EnforceTranslation.window := Some (10, 25);
                 EnforceTranslation.translation := Some (py "MKKL*");
                 EnforceTranslation.strand := 1;
                 EnforceTranslation.initialize_translation_from_problem :=
                   false |} (10, 25) (14, 18) (py "MKKL*"))
    as (S' & nw & HS' & Hw & _).
  - reflexivity.
  - reflexivity.
  - reflexivity.
  - exists 14. simpl. lia.
  - exists S'. split; [exact HS'|].
    vm_compute in HS'. injection HS' as <-. split; reflexivity.
Defined.

(** ** EnforceRegionsCompatibility *)

Lemma elem_of_combinations2 {A} (l : list A) (x y : A) :
  (x, y) ∈ combinations2 l
  ↔ ∃ i j, (i < j)%nat ∧ l !! i = Some x ∧ l !! j = Some y.
Proof.
  induction l as [|a l IH]; simpl.
  - split; [inversion 1 | intros (i & j & _ & Hi & _); discriminate].
  - rewrite elem_of_app, IH, list_elem_of_fmap. split.
    + intros [(z & [= -> ->] & Hz) | (i & j & Hij & Hi & Hj)].
      * apply list_elem_of_lookup in Hz as [j Hj].
        exists 0%nat, (S j). split; [lia|]. split; [reflexivity | exact Hj].
      * exists (S i), (S j). split; [lia|]. split; assumption.
    + intros (i & j & Hij & Hi & Hj).
      destruct j as [|j]; [lia|]. destruct i as [|i]; simpl in *.
      * injection Hi as <-. left. exists y. split; [reflexivity|].
        apply list_elem_of_lookup. eauto.
      * right. exists i, j. split; [lia|]. split; assumption.
Qed.

(** X15.  EnforceRegionsCompatibility tests every pair of regions once, the
    earlier region of the list first: the score is minus the number of
    incompatible pairs, it is 0 exactly when every pair is compatible and
    exactly when no window is reported, and the reported windows are,
    without repetition, the regions that belong to an incompatible pair. *)
Theorem regions_score_and_windows (S : EnforceRegionsCompatibility.t)
    (sequence : str) :
  let regions := EnforceRegionsCompatibility.regions S in
  let compatible := EnforceRegionsCompatibility.compatibility_condition S in
  let e := EnforceRegionsCompatibility.evaluate S sequence in
  score e ≤ 0
  ∧ (score e = 0
     ↔ ∀ i j r1 r2, (i < j)%nat → regions !! i = Some r1 →
                    regions !! j = Some r2 → compatible r1 r2 sequence = true)
  ∧ (score e = 0 ↔ violated_windows e = [])
  ∧ NoDup (violated_windows e)
  ∧ ∀ r, r ∈ violated_windows e
         ↔ ∃ i j r1 r2, (i < j)%nat ∧ regions !! i = Some r1
                        ∧ regions !! j = Some r2
                        ∧ compatible r1 r2 sequence = false
                        ∧ (r = r1 ∨ r = r2).
Proof.
  intros regions compatible e.
  set (pairs := EnforceRegionsCompatibility.incompatible_regions_pairs S
                  sequence).
  assert (Hpairs : ∀ r1 r2, (r1, r2) ∈ pairs
            ↔ ∃ i j, (i < j)%nat ∧ regions !! i = Some r1
                     ∧ regions !! j = Some r2
                     ∧ compatible r1 r2 sequence = false).
  { intros r1 r2. unfold pairs,
      EnforceRegionsCompatibility.incompatible_regions_pairs.
    rewrite list_elem_of_filter, elem_of_combinations2. simpl.
    fold regions compatible. split.
    - intros (Hc & i & j & Hij & Hi & Hj). exists i, j. auto.
    - intros (i & j & Hij & Hi & Hj & Hc). split; [exact Hc|]. eauto. }
  assert (Hwin : ∀ r, r ∈ violated_windows e
            ↔ ∃ r1 r2, (r1, r2) ∈ pairs ∧ (r = r1 ∨ r = r2)).
  { intros r. unfold e, EnforceRegionsCompatibility.evaluate,
      violated_windows, EnforceRegionsCompatibility.regions_by_count. simpl.
    fold pairs. rewrite merge_sort_Permutation, elem_of_remove_dups.
    rewrite list_elem_of_In, in_flat_map. split.
    - intros ([r1 r2] & Hp & Hr). apply list_elem_of_In in Hp.
      exists r1, r2. split; [exact Hp|].
      destruct Hr as [<-|[<-|[]]]; auto.
    - intros (r1 & r2 & Hp & Hr). exists (r1, r2).
      split; [apply list_elem_of_In, Hp|].
      destruct Hr as [-> | ->]; simpl; auto. }
  assert (Hscore : score e = - len pairs) by reflexivity.
  assert (Hzero : score e = 0 ↔ pairs = []).
  { rewrite Hscore. unfold len. destruct pairs; simpl; split;
      intros; (reflexivity || lia || discriminate). }
  split; [rewrite Hscore; pose proof (len_nonneg pairs); lia|].
  split; [|split; [|split]].
  - rewrite Hzero. split.
    + intros Hnil i j r1 r2 Hij Hi Hj.
      destruct (compatible r1 r2 sequence) eqn:Hc; [reflexivity|].
      assert (Hin : (r1, r2) ∈ pairs) by (apply Hpairs; eauto 10).
      rewrite Hnil in Hin. inversion Hin.
    + intros Hall. destruct pairs as [|[r1 r2] rest]; [reflexivity|].
      assert (Hin : (r1, r2) ∈ (r1, r2) :: rest) by left.
      apply Hpairs in Hin as (i & j & Hij & Hi & Hj & Hc).
      rewrite (Hall i j r1 r2 Hij Hi Hj) in Hc. discriminate.
  - rewrite Hzero. split.
    + intros Hnil. destruct (violated_windows e) as [|r rest];
        [reflexivity|].
      assert (Hr : r ∈ r :: rest) by left.
      apply Hwin in Hr as (r1 & r2 & Hp & _). rewrite Hnil in Hp.
      inversion Hp.
    + intros Hnil. destruct pairs as [|[r1 r2] rest]; [reflexivity|].
      assert (Hr : r1 ∈ violated_windows e).
      { apply Hwin. exists r1, r2. split; [left | left; reflexivity]. }
      rewrite Hnil in Hr. inversion Hr.
  - unfold e, EnforceRegionsCompatibility.evaluate, violated_windows,
      EnforceRegionsCompatibility.regions_by_count. simpl.
    rewrite merge_sort_Permutation. apply NoDup_remove_dups.
  - intros r. rewrite Hwin. split.
    + intros (r1 & r2 & Hp & Hr).
      apply Hpairs in Hp as (i & j & Hij & Hi & Hj & Hc).
      exists i, j, r1, r2. auto.
    + intros (i & j & r1 & r2 & Hij & Hi & Hj & Hc & Hr).
      exists r1, r2. split; [apply Hpairs; eauto 10 | exact Hr].
Qed.

Section RegionsLocalized.
Variable compatible : interval → interval → bool.
Hypothesis compatible_sym : ∀ r1 r2, compatible r1 r2 = compatible r2 r1.

Lemma localized_entries_fresh (x : interval) (l : list interval) :
  x ∉ l →
  length (flat_map (localized_entry compatible x) l)
  = length (filter (λ r, compatible x r = false) l)
  ∧ length (flat_map (λ r, localized_entry compatible r x) l)
    = length (filter (λ r, compatible x r = false) l).
Proof.
  induction l as [|a l IH]; intros Hx; [split; reflexivity|].
  apply not_elem_of_cons in Hx as [Hxa Hx]. destruct (IH Hx) as [IH1 IH2].
  simpl. rewrite !length_app, IH1, IH2, filter_cons.
  unfold localized_entry.
  rewrite (decide_True (P := x ≠ a)) by exact Hxa.
  rewrite (decide_True (P := a ≠ x)) by (intros ->; contradiction).
  rewrite (compatible_sym a x).
  destruct (compatible x a) eqn:Hxa'; simpl;
    destruct (decide (compatible x a = false)) as [Hd|Hd];
    try congruence; split; reflexivity.
Qed.

Lemma localized_entries_double (l : list interval) :
  NoDup l →
  length (flat_map (λ region, flat_map (localized_entry compatible region) l) l)
  = (2 * length (filter (λ p : interval * interval,
                           compatible p.1 p.2 = false)
                   (combinations2 l)))%nat.
Proof.
  induction 1 as [|x l Hx Hnodup IH]; [reflexivity|].
  destruct (localized_entries_fresh x l Hx) as [Hrow Hcolumn].
  assert (Hsplit : ∀ k : list interval,
            length (flat_map (λ region,
                      flat_map (localized_entry compatible region) (x :: l)) k)
            = (length (flat_map (λ r, localized_entry compatible r x) k)
               + length (flat_map (λ region,
                           flat_map (localized_entry compatible region) l) k))%nat).
  { assert (Hcons : ∀ (f : interval → list interval) a k',
              flat_map f (a :: k') = f a ++ flat_map f k') by reflexivity.
    induction k as [|r k IHk]; [reflexivity|].
    rewrite !Hcons, !length_app, IHk. lia. }
  change (flat_map (λ region, flat_map (localized_entry compatible region) (x :: l))
            (x :: l))
    with (flat_map (localized_entry compatible x) (x :: l)
          ++ flat_map (λ region, flat_map (localized_entry compatible region) (x :: l))
               l).
  rewrite length_app, Hsplit, IH, Hcolumn.
  change (flat_map (localized_entry compatible x) (x :: l))
    with (localized_entry compatible x x ++ flat_map (localized_entry compatible x) l).
  rewrite length_app, Hrow.
  unfold localized_entry at 1. rewrite decide_False by (intros Hne; apply Hne; reflexivity).
  simpl. rewrite filter_app, length_app.
  assert (Hmap : length (filter (λ p : interval * interval,
                                   compatible p.1 p.2 = false)
                           (map (pair x) l))
                 = length (filter (λ r, compatible x r = false) l)).
  { clear. induction l as [|a l IHl]; [reflexivity|].
    simpl. rewrite !filter_cons. simpl.
    destruct (decide (compatible x a = false)); simpl; rewrite IHl;
      reflexivity. }
  rewrite Hmap. lia.
Qed.

End RegionsLocalized.

(** X16.  EnforceRegionsCompatibility localized on a window that holds
    every region, for regions without repetition and a symmetric
    compatibility condition: the localized objective counts every
    incompatible pair from both of its regions, its score is twice the
    score of the objective, and it reports no window.  A window that holds
    no region gives score 0. *)
Theorem regions_localized_counts_twice (S : EnforceRegionsCompatibility.t)
    (W : interval) (sequence : str) :
  let local :=
    objective_evaluate (EnforceRegionsCompatibility.localized S W) sequence in
  (NoDup (EnforceRegionsCompatibility.regions S) →
   (∀ r1 r2, EnforceRegionsCompatibility.compatibility_condition S r1 r2
               sequence
             = EnforceRegionsCompatibility.compatibility_condition S r2 r1
                 sequence) →
   Forall (λ r : interval, W.1 ≤ r.1 ∧ r.1 ≤ r.2 ∧ r.2 ≤ W.2)
     (EnforceRegionsCompatibility.regions S) →
   score local
   = 2 * score (EnforceRegionsCompatibility.evaluate S sequence))
  ∧ (Forall (λ r : interval, ¬ (W.1 ≤ r.1 ∧ r.1 ≤ r.2 ∧ r.2 ≤ W.2))
       (EnforceRegionsCompatibility.regions S) →
     score local = 0)
  ∧ violated_windows local = [].
Proof.
  intros local. split; [|split; [|reflexivity]].
  - intros Hnodup Hsym Hall.
    unfold local, EnforceRegionsCompatibility.localized,
      EnforceRegionsCompatibility.localized_evaluate,
      EnforceRegionsCompatibility.evaluate,
      EnforceRegionsCompatibility.incompatible_regions_pairs,
      EnforceRegionsCompatibility.included_regions. simpl.
    assert (Hincluded : filter (λ r : interval,
                                  W.1 ≤ r.1 ∧ r.1 ≤ r.2 ∧ r.2 ≤ W.2)
                          (EnforceRegionsCompatibility.regions S)
                        = EnforceRegionsCompatibility.regions S).
    { clear -Hall. induction Hall as [|r l Hr Hl IH]; [reflexivity|].
      rewrite filter_cons, decide_True by exact Hr. f_equal. exact IH. }
    rewrite Hincluded.
    pose proof (localized_entries_double
                  (λ r1 r2, EnforceRegionsCompatibility.compatibility_condition
                              S r1 r2 sequence)
                  Hsym (EnforceRegionsCompatibility.regions S) Hnodup)
      as Hdouble.
    unfold localized_entry in Hdouble. unfold len. rewrite Hdouble. lia.
  - intros Hnone.
    unfold local, EnforceRegionsCompatibility.localized,
      EnforceRegionsCompatibility.localized_evaluate,
      EnforceRegionsCompatibility.included_regions. simpl.
    assert (Hincluded : filter (λ r : interval,
                                  W.1 ≤ r.1 ∧ r.1 ≤ r.2 ∧ r.2 ≤ W.2)
                          (EnforceRegionsCompatibility.regions S) = []).
    { clear -Hnone. induction Hnone as [|r l Hr Hl IH]; [reflexivity|].
      rewrite filter_cons, decide_False by exact Hr. exact IH. }
    rewrite Hincluded. simpl. clear Hnone Hincluded.
    induction (EnforceRegionsCompatibility.regions S) as [|r l IH];
      [reflexivity | exact IH].
Qed.

Lemma regions_localized_counts_twice_witness :
  score (objective_evaluate
           (EnforceRegionsCompatibility.localized two_regions (0, 6))
           (py "AAAAAA"))
  = 2 * score (EnforceRegionsCompatibility.evaluate two_regions (py "AAAAAA"))
  ∧ score (objective_evaluate
             (EnforceRegionsCompatibility.localized two_regions (1, 5))
             (py "AAAAAA")) = 0.
Proof.
  destruct (regions_localized_counts_twice two_regions (0, 6) (py "AAAAAA"))
    as (Hdouble & _).
  destruct (regions_localized_counts_twice two_regions (1, 5) (py "AAAAAA"))
    as (_ & Hnone & _).
  split.
  - apply Hdouble.
    + repeat constructor; [|inversion 1].
      intros Hin. apply list_elem_of_singleton in Hin. discriminate.
    + intros r1 r2. unfold two_regions, regions_differ. simpl.
      apply bool_decide_ext. split; intros Hne Heq; apply Hne; symmetry;
        exact Heq.
    + repeat constructor; simpl; lia.
  - apply Hnone. repeat constructor; simpl; lia.
Defined.

(** ** CodonOptimize of [objectives.py] and the patterns *)

Lemma mapM_from_option_cases {A B} (e : exn) (f : A → option B) (l : list A) :
  (∃ ys, mapM (λ x, from_option e (f x)) l = Ok ys
         ∧ Forall2 (λ x y, f x = Some y) l ys)
  ∨ (mapM (λ x, from_option e (f x)) l = Raise e
     ∧ ∃ x, x ∈ l ∧ f x = None).
Proof.
  induction l as [|x l IH]; simpl.
  - left. exists []. split; [reflexivity | constructor].
  - destruct (f x) as [y|] eqn:Hx; simpl.
    + destruct IH as [(ys & -> & Hall) | (-> & z & Hz & Hnone)]; simpl.
      * left. exists (y :: ys). split; [reflexivity|].
        constructor; assumption.
      * right. split; [reflexivity|]. exists z. split; [right|]; assumption.
    + right. split; [reflexivity|]. exists x. split; [left | exact Hx].
Qed.

(** X17.  The evaluation of CodonOptimize of [objectives.py], on the
    subsequence of its window read on its strand, does one of three
    things: it raises the value error when the length is not a multiple of
    3; it raises a key error when the length is a multiple of 3 and some
    codon is not in the usage table; otherwise it returns the sum of the
    usages of the codons, in order, and reports the whole window. *)
Theorem codon_evaluate_cases (S : CodonOptimize.t) (sequence : str) :
  let w := default (0, len sequence) (CodonOptimize.window S) in
  let subsequence :=
    if decide (CodonOptimize.strand S = -1)
    then reverse_complement (py_slice sequence w.1 w.2)
    else py_slice sequence w.1 w.2 in
  let codon i := py_slice subsequence (3 * i) (3 * (i + 1)) in
  let table := CodonOptimize.codon_usage_table S in
  (len subsequence `mod` 3 ≠ 0
   ∧ CodonOptimize.evaluate S sequence
     = Raise (ValueError not_multiple_of_3_message))
  ∨ (len subsequence `mod` 3 = 0
     ∧ (∃ i, 0 ≤ i ∧ i < len subsequence `div` 3 ∧ table !! codon i = None)
     ∧ CodonOptimize.evaluate S sequence = Raise KeyError)
  ∨ (len subsequence `mod` 3 = 0
     ∧ ∃ usages,
         Forall2 (λ i u, table !! codon i = Some u)
           (seqZ 0 (len subsequence `div` 3)) usages
         ∧ CodonOptimize.evaluate S sequence
           = Ok {| score := np_sum usages; windows := Some [w] |}).
Proof.
  intros w subsequence codon table. unfold CodonOptimize.evaluate.
  cbv zeta. fold w. fold subsequence.
  case_decide as Hmod; [left; split; [exact Hmod | reflexivity]|].
  right.
  assert (Hzero : len subsequence `mod` 3 = 0) by lia.
  destruct (mapM_from_option_cases KeyError (λ i, table !! codon i)
              (py_range (len subsequence `div` 3)))
    as [(usages & Hm & Hall) | (Hm & i & Hi & Hnone)].
  - right. split; [exact Hzero|]. exists usages. split; [exact Hall|].
    unfold codon, table in Hm. rewrite Hm. reflexivity.
  - left. split; [exact Hzero|]. apply elem_of_seqZ in Hi.
    split; [exists i; repeat split; try lia; exact Hnone|].
    unfold codon, table in Hm. rewrite Hm. reflexivity.
Qed.

(** X20.  EnforcePattern: the score is never positive and it is 0 exactly
    when the matcher finds [occurences] matches; whatever the score, the
    one reported window is the window searched.  With an explicit window
    and [occurences = 0] the score is that of AvoidPattern, which reports
    the matches themselves. *)
Theorem enforce_pattern_score `{Biotools} (S : EnforcePattern.t)
    (sequence : str) :
  let w := default (0, len sequence) (EnforcePattern.window S) in
  let found := find_matches (EnforcePattern.pattern S) sequence (Some w) in
  let e := EnforcePattern.evaluate S sequence in
  score e ≤ 0
  ∧ (score e = 0 ↔ len found = EnforcePattern.occurences S)
  ∧ violated_windows e = [w]
  ∧ (EnforcePattern.occurences S = 0 →
     ∀ own, EnforcePattern.window S = Some own →
       let a :=
         AvoidPattern.evaluate
           {| AvoidPattern.pattern := EnforcePattern.pattern S;
              AvoidPattern.window := Some own |} sequence in
       score a = score e ∧ violated_windows a = found).
Proof.
  intros w found e. unfold e, EnforcePattern.evaluate. cbv zeta.
  cbn [score]. fold w. fold found.
  split; [lia|]. split; [unfold interval; split; lia|].
  split; [reflexivity|].
  intros Hzero own Hown. unfold AvoidPattern.evaluate, violated_windows.
  cbv zeta. cbn [score windows AvoidPattern.pattern AvoidPattern.window].
  unfold found, w. rewrite Hown, Hzero.
  pose proof (len_nonneg
                (find_matches (EnforcePattern.pattern S) sequence (Some own))).
  split; [unfold interval in *; simpl default; lia | reflexivity].
Qed.

Lemma enforce_pattern_score_witness :
  let S := {| EnforcePattern.pattern := py "ATG";
              EnforcePattern.window := Some (0, 9);
              EnforcePattern.occurences := 0; EnforcePattern.boost := 1 |} in
  let a := AvoidPattern.evaluate (H := small_biotools)
             {| AvoidPattern.pattern := py "ATG";
                AvoidPattern.window := Some (0, 9) |} (py "CATGGATGC") in
  score a = score (EnforcePattern.evaluate (H := small_biotools) S
                     (py "CATGGATGC"))
  ∧ violated_windows a = [(1, 4); (5, 8)].
Proof.
  intros S a.
  destruct (@enforce_pattern_score small_biotools S (py "CATGGATGC"))
    as (_ & _ & _ & Havoid).
  destruct (Havoid eq_refl (0, 9) eq_refl) as [Hscore Hfound].
  split; [exact Hscore|].
  etransitivity; [exact Hfound|]. vm_compute. reflexivity.
Defined.

(** ** CodonOptimize of the specifications package *)

(** X18.  The evaluation of CodonOptimize of the specifications package
    raises on every input.  When the subsequence is extracted, its length
    is a multiple of 3, there is a codon and every codon and its
    translation are in the usage table, what it raises is the type error
    of adding the start of the location to, or subtracting from its end,
    the tuple of index arrays. *)
Theorem codon_specification_always_raises `{Biotools}
    (S : Specifications.CodonOptimize.t) (sequence : str) :
  (∃ ex, Specifications.CodonOptimize.evaluate S sequence = Raise ex)
  ∧ ∀ own subsequence pairs,
      Specifications.CodonOptimize.location S = Some own →
      Specifications.extract_sequence own sequence = Ok subsequence →
      len subsequence `mod` 3 = 0 →
      mapM (Specifications.CodonOptimize.usages S)
        (map (λ i, py_slice subsequence (3 * i) (3 * (i + 1)))
           (py_range (len subsequence `div` 3))) = Ok pairs →
      pairs ≠ [] →
      Specifications.CodonOptimize.evaluate S sequence = Raise TypeError.
Proof.
  split.
  - destruct (Specifications.CodonOptimize.evaluate S sequence) as [e|ex]
      eqn:He; [|exists ex; reflexivity].
    exfalso. exact (codon_specification_never_returns S sequence e He).
  - intros own subsequence pairs Hown Hsub Hmod Hpairs Hne.
    unfold Specifications.CodonOptimize.evaluate.
    rewrite Hown. simpl. rewrite Hsub. simpl.
    rewrite decide_False by lia. rewrite Hpairs. simpl.
    destruct pairs as [|p pairs]; [contradiction|]. simpl.
    case_decide; reflexivity.
Qed.

Lemma codon_specification_always_raises_witness :
  Specifications.CodonOptimize.evaluate (H := small_biotools) two_lysines
    (py "AAGAAA") = Raise TypeError.
Proof.
  apply (proj2 (@codon_specification_always_raises small_biotools two_lysines
                  (py "AAGAAA"))
           {| Specifications.start := 0; Specifications.end_ := 6;
              Specifications.strand := Some 1 |}
           (py "AAGAAA")
           [((1 # 4)%Q, (3 # 4)%Q); ((3 # 4)%Q, (3 # 4)%Q)]).
  - reflexivity.
  - vm_compute. reflexivity.
  - vm_compute. reflexivity.
  - vm_compute. reflexivity.
  - discriminate.
Defined.

(** X21.  [localized_on_window] of CodonOptimize of the specifications
    package builds the new object from the species alone.  For an object
    built from a known species it returns the object at the new location,
    with the same table; for an object built from a codon usage table
    without species it raises the configuration error of the
    constructor. *)
Theorem codon_localized_on_window_needs_species `{Biotools}
    (species : option str) (location : option Specifications.Location)
    (codon_usage_table : option (gmap str Q)) (boost : Q)
    (S : Specifications.CodonOptimize.t)
    (new_location : Specifications.Location) (start_codon end_codon : Z) :
  Specifications.CodonOptimize.init species location codon_usage_table boost
  = Ok S →
  (species = None →
   ∃ msg, Specifications.CodonOptimize.localized_on_window S new_location
            start_codon end_codon = Raise (ValueError msg))
  ∧ (species ≠ None →
     Specifications.CodonOptimize.localized_on_window S new_location
       start_codon end_codon
     = Ok {| Specifications.CodonOptimize.boost := boost;
             Specifications.CodonOptimize.location := Some new_location;
             Specifications.CodonOptimize.species := species;
             Specifications.CodonOptimize.codon_usage_table :=
               Specifications.CodonOptimize.codon_usage_table S |}).
Proof.
  unfold Specifications.CodonOptimize.init.
  destruct species as [name|]; simpl.
  - destruct (CODON_USAGE_TABLES name) as [table|] eqn:Htable; simpl;
      [|discriminate].
    intros [= <-]. split; [discriminate|]. intros _.
    unfold Specifications.CodonOptimize.localized_on_window,
      Specifications.CodonOptimize.init. simpl. rewrite Htable. reflexivity.
  - destruct codon_usage_table as [table|]; [|discriminate].
    intros [= <-]. split; [|intros Hne; contradiction].
    intros _. eexists. reflexivity.
Qed.

Lemma codon_localized_on_window_needs_species_witness :
  ∃ msg, Specifications.CodonOptimize.localized_on_window
           (H := small_biotools) two_lysines primer_location 0 2
         = Raise (ValueError msg).
Proof.
  apply (proj1 (@codon_localized_on_window_needs_species small_biotools
                  None (Specifications.CodonOptimize.location two_lysines)
                  (Some lysine_usage) 1%Q two_lysines primer_location 0 2
                  eq_refl)).
  reflexivity.
Defined.
